(** * Invite-only sign-up hooks of firebase-auth-app

    A shallow embedding of [functions/src/index.ts]: the three Cloud
    Functions [checkInviteOnCreate] (blocking, before account creation),
    [validateOnSignIn] (blocking, before every sign-in) and [onUserCreated]
    (trigger, after account creation).

    The functions talk to Firestore through the Admin SDK, which is not
    part of the sources.  What they use of it is modelled here as the
    SDK documents it and as the spec describes its Record Store
    (section 6): point lookups by id, equality and range queries with a
    result limit, and a write batch that commits all of its writes or
    none.  Document ids are single path segments. *)

From Stdlib Require Import ZArith String.
From stdpp Require Import base option list strings gmap fin_maps sorting.

Local Open Scope string_scope.
Local Open Scope list_scope.

(** ** Firestore values and documents *)

(** A value stored in a document field.  A JavaScript expression that
    reads a field is an [option value]: [None] is [undefined], which
    Firestore never stores. *)
Inductive value : Type :=
  | VNull
  | VBool (b : bool)
  | VNum (n : Z)
  | VStr (s : string)
  | VTime (t : Z).

#[global] Instance value_eq_dec : EqDecision value.
Proof. solve_decision. Defined.

(** Documents are field maps, collections map document ids to documents,
    and the database maps collection names to collections. *)
Abbreviation doc := (gmap string value).
Abbreviation collection := (gmap string (gmap string value)).
Abbreviation db := (gmap string (gmap string (gmap string value))).

(** [db.collection(name)] *)
Definition coll (st : db) (name : string) : collection :=
  default ∅ (st !! name).

(** JavaScript truthiness of a field read, as used by [&&] and [!]. *)
Definition truthy (v : option value) : bool :=
  match v with
  | None | Some VNull => false
  | Some (VBool b) => b
  | Some (VNum n) => negb (n =? 0)%Z
  | Some (VStr s) => negb (String.eqb s "")
  | Some (VTime _) => true
  end.

(** An optional string of an event payload that passes the [!x] guard. *)
Definition present (s : option string) : option string :=
  match s with
  | Some EmptyString => None
  | other => other
  end.

(** ** Ordering of query results

    Firestore compares values of different types by type first; within
    a type numbers, timestamps and strings compare naturally. *)
Definition vkey (v : option value) : Z * Z * string :=
  match v with
  | None => (0, 0, "")%Z
  | Some VNull => (1, 0, "")%Z
  | Some (VBool b) => (2, if b then 1 else 0, "")%Z
  | Some (VNum n) => (3, n, "")%Z
  | Some (VTime t) => (4, t, "")%Z
  | Some (VStr s) => (5, 0, s)%Z
  end.

Definition str_lt (s t : string) : Prop := String.le s t ∧ s ≠ t.

Definition key_lt (a b : Z * Z * string) : Prop :=
  (a.1.1 < b.1.1)%Z ∨
  (a.1.1 = b.1.1 ∧ ((a.1.2 < b.1.2)%Z ∨ (a.1.2 = b.1.2 ∧ str_lt a.2 b.2))).

#[global] Instance key_lt_dec a b : Decision (key_lt a b).
Proof. unfold key_lt, str_lt. apply _. Defined.

(** ** Queries *)

Inductive cond : Type :=
  | WhereEq (field : string) (v : value)
  | WhereGt (field : string) (v : value).

Record query : Type := Query {
  q_coll : string;
  q_where : list cond;
  q_limit : nat
}.

(** A range filter only matches fields holding a value of the type of
    its bound. *)
Definition matches (d : doc) (c : cond) : bool :=
  match c with
  | WhereEq f v => bool_decide (d !! f = Some v)
  | WhereGt f v =>
      bool_decide ((vkey (d !! f)).1.1 = (vkey (Some v)).1.1)
      && bool_decide (key_lt (vkey (Some v)) (vkey (d !! f)))
  end.

Definition matches_all (cs : list cond) (d : doc) : bool :=
  forallb (matches d) cs.

(** Without an [orderBy], results come in ascending document id, unless
    a range filter is present: then they come in ascending order of the
    filtered field, document id breaking ties. *)
Fixpoint order_field (cs : list cond) : option string :=
  match cs with
  | [] => None
  | WhereGt f _ :: _ => Some f
  | WhereEq _ _ :: cs' => order_field cs'
  end.

Definition entry_le (o : option string) (x y : string * doc) : Prop :=
  match o with
  | None => String.le x.1 y.1
  | Some f =>
      key_lt (vkey (x.2 !! f)) (vkey (y.2 !! f)) ∨
      (vkey (x.2 !! f) = vkey (y.2 !! f) ∧ String.le x.1 y.1)
  end.

#[global] Instance entry_le_dec o : RelDecision (entry_le o).
Proof. intros x y. destruct o; simpl; apply _. Defined.

Definition candidates (q : query) (st : db) : list (string * doc) :=
  filter (λ x, Is_true (matches_all (q_where q) x.2))
         (map_to_list (coll st (q_coll q))).

(** [query.get()]: the matching documents in result order, cut at the
    limit. *)
Definition run_query (q : query) (st : db) : list (string * doc) :=
  take (q_limit q) (merge_sort (entry_le (order_field (q_where q))) (candidates q st)).

(** ** Writes *)

(** A field of the data passed to [set] or [update]: a plain value or a
    [FieldValue] sentinel resolved by the server. *)
Inductive wvalue : Type :=
  | WVal (v : value)
  | WServerTimestamp
  | WIncrement (k : Z).

Inductive write : Type :=
  | WSet (c id : string) (data : list (string * wvalue))
  | WUpdate (c id : string) (data : list (string * wvalue)).

(** [FieldValue.increment] adds to a number and otherwise (field
    missing or not a number) stores its operand. *)
Definition resolve (now : Z) (old : option value) (w : wvalue) : value :=
  match w with
  | WVal v => v
  | WServerTimestamp => VTime now
  | WIncrement k =>
      match old with
      | Some (VNum n) => VNum (n + k)
      | _ => VNum k
      end
  end.

Definition write_fields (now : Z) (old : doc) (data : list (string * wvalue)) : doc :=
  foldl (λ d kw, <[kw.1 := resolve now (old !! kw.1) kw.2]> d) old data.

Inductive error : Type :=
  | HttpsError (code message : string)
  | InvalidPath
  | InvalidData
  | NotFound
  | Unavailable.

(** One write against the staged state.  [set] creates or replaces the
    document; [update] requires it to exist. *)
Definition apply_write (now : Z) (w : write) (st : db) : error + db :=
  match w with
  | WSet c id data =>
      inr (<[c := <[id := write_fields now ∅ data]> (coll st c)]> st)
  | WUpdate c id data =>
      match coll st c !! id with
      | None => inl NotFound
      | Some old => inr (<[c := <[id := write_fields now old data]> (coll st c)]> st)
      end
  end.

(** The backend stages the writes of a batch one after the other.
    [fault = Some k] is a failure of the backend once [k] writes are
    staged. *)
Fixpoint stage (fault : option nat) (now : Z) (ws : list write) (st : db) : error + db :=
  match fault, ws with
  | Some O, _ => inl Unavailable
  | _, [] => inr st
  | _, w :: ws' =>
      match apply_write now w st with
      | inl e => inl e
      | inr st' => stage (Nat.pred <$> fault) now ws' st'
      end
  end.

(** ** The hook monad: state and exceptions *)

(** The database together with the journal of committed writes. *)
Record world : Type := World {
  store : db;
  journal : list write
}.

Inductive result (A : Type) : Type :=
  | Ok (a : A)
  | Throw (e : error).
Arguments Ok {A} a.
Arguments Throw {A} e.

Definition M (A : Type) : Type := world → result A * world.

Definition ret {A} (a : A) : M A := λ w, (Ok a, w).
Definition throw {A} (e : error) : M A := λ w, (Throw e, w).
Definition bind {A B} (m : M A) (k : A → M B) : M B :=
  λ w, match m w with
       | (Ok a, w') => k a w'
       | (Throw e, w') => (Throw e, w')
       end.

Notation "x <- m ;; k" := (bind m (λ x, k))
  (at level 100, m at next level, right associativity).

(** The function's environment: its clock (also the server's, for
    [serverTimestamp]) and the fault the backend will have on commit. *)
Record env : Type := Env {
  clock : Z;
  fault : option nat
}.

(** [db.collection(c).doc(id)]: the id must be a non-empty string. *)
Definition doc_ref (c : string) (id : option value) : M (string * string) :=
  match id with
  | Some (VStr s) => if String.eqb s "" then throw InvalidPath else ret (c, s)
  | _ => throw InvalidPath
  end.

(** [ref.get()]: [None] for a snapshot whose [exists] is false. *)
Definition doc_get (r : string * string) : M (option doc) :=
  λ w, (Ok (coll (store w) r.1 !! r.2), w).

Definition query_get (q : query) : M (list (string * doc)) :=
  λ w, (Ok (run_query q (store w)), w).

(** [batch.set] and [batch.update] validate their data when called:
    [undefined] is not a Firestore value. *)
Fixpoint validate (data : list (string * option wvalue)) : option (list (string * wvalue)) :=
  match data with
  | [] => Some []
  | (k, Some v) :: rest => cons (k, v) <$> validate rest
  | (_, None) :: _ => None
  end.

Definition batch_set (b : list write) (r : string * string)
    (data : list (string * option wvalue)) : M (list write) :=
  match validate data with
  | Some fields => ret (b ++ [WSet r.1 r.2 fields])%list
  | None => throw InvalidData
  end.

Definition batch_update (b : list write) (r : string * string)
    (data : list (string * option wvalue)) : M (list write) :=
  match validate data with
  | Some fields => ret (b ++ [WUpdate r.1 r.2 fields])%list
  | None => throw InvalidData
  end.

(** [batch.commit()]: the atomic write unit of the Record Store; all
    staged writes reach the store, or none does and the commit throws. *)
Definition batch_commit (e : env) (b : list write) : M unit :=
  λ w, match stage (fault e) (clock e) b (store w) with
       | inl err => (Throw err, w)
       | inr st' => (Ok tt, {| store := st'; journal := (journal w ++ b)%list |})
       end.

(** The world after [n] runs of a computation in a row. *)
Fixpoint invoke_times {A} (n : nat) (m : M A) (w : world) : world :=
  match n with
  | O => w
  | S n' => invoke_times n' m (m w).2
  end.

(** ** Claims *)

Inductive claims : Type :=
  | SuperAdminClaims
  | MemberClaims (role orgId : option value).

(** What a blocking function returns: [{ customClaims }] or [{}]. *)
Definition response : Type := option claims.

Definition str (s : string) : option value := Some (VStr s).

(** ** The three functions *)

Definition superAdminQuery (email : string) : query :=
  {| q_coll := "users";
     q_where := [WhereEq "email" (VStr email); WhereEq "role" (VStr "superAdmin")];
     q_limit := 1 |}.

Definition validInviteQuery (email : string) (now : Z) : query :=
  {| q_coll := "invites";
     q_where := [WhereEq "email" (VStr email); WhereEq "status" (VStr "pending");
                 WhereGt "expiresAt" (VTime now)];
     q_limit := 1 |}.

Definition pendingInviteQuery (email : string) : query :=
  {| q_coll := "invites";
     q_where := [WhereEq "email" (VStr email); WhereEq "status" (VStr "pending")];
     q_limit := 1 |}.

Definition no_invitation : error :=
  HttpsError "permission-denied" "No valid invitation found for this email.".

Definition deactivated : error :=
  HttpsError "permission-denied"
             "Your account has been deactivated. Contact an administrator.".

Definition email_required : error :=
  HttpsError "invalid-argument" "Email is required.".

Definition checkInviteOnCreate (e : env) (email : option string) : M response :=
  match present email with
  | None => throw email_required
  | Some email =>
      superAdmins <- query_get (superAdminQuery email) ;;
      match superAdmins with
      | _ :: _ => ret (Some SuperAdminClaims)
      | [] =>
          inviteQuery <- query_get (validInviteQuery email (clock e)) ;;
          match inviteQuery with
          | [] => throw no_invitation
          | (_, invite) :: _ =>
              ret (Some (MemberClaims (invite !! "role") (invite !! "orgId")))
          end
      end
  end.

Definition validateOnSignIn (e : env) (uid email : option string) : M response :=
  match present uid, present email with
  | Some uid, Some _ =>
      ref <- doc_ref "users" (str uid) ;;
      userDoc <- doc_get ref ;;
      match userDoc with
      | Some userData =>
          if bool_decide (userData !! "role" = str "superAdmin") then
            ret (Some SuperAdminClaims)
          else if truthy (userData !! "role") && truthy (userData !! "orgId") then
            ret (Some (MemberClaims (userData !! "role") (userData !! "orgId")))
          else throw deactivated
      | None => ret None
      end
  | _, _ => throw email_required
  end.

(** The [UserRecord] handed to the [onCreate] trigger. *)
Record UserRecord : Type := {
  uid : string;
  email : option string;
  displayName : option string;
  photoURL : option string
}.

(** [x || ""] *)
Definition or_empty (s : option string) : string := default "" s.

Definition user_fields (email : string) (u : UserRecord) (invite : doc)
    : list (string * option wvalue) :=
  [ ("email", Some (WVal (VStr email)));
    ("displayName", Some (WVal (VStr (or_empty (displayName u)))));
    ("photoURL", Some (WVal (VStr (or_empty (photoURL u)))));
    ("orgId", WVal <$> invite !! "orgId");
    ("role", WVal <$> invite !! "role");
    ("createdAt", Some WServerTimestamp);
    ("updatedAt", Some WServerTimestamp) ].

Definition onUserCreated (e : env) (u : UserRecord) : M unit :=
  match present (email u) with
  | None => ret tt
  | Some email =>
      userRef <- doc_ref "users" (str (uid u)) ;;
      existingDoc <- doc_get userRef ;;
      match existingDoc with
      | Some _ => ret tt
      | None =>
          inviteQuery <- query_get (pendingInviteQuery email) ;;
          match inviteQuery with
          | [] => ret tt
          | (inviteId, invite) :: _ =>
              batch <- batch_set [] userRef (user_fields email u invite) ;;
              batch <- batch_update batch ("invites", inviteId)
                         [("status", Some (WVal (VStr "accepted")))] ;;
              orgRef <- doc_ref "orgs" (invite !! "orgId") ;;
              batch <- batch_update batch orgRef
                         [("memberCount", Some (WIncrement 1))] ;;
              batch_commit e batch
          end
      end
  end.

(** ** The data model of the hooks *)

(** A user record of the super role for this email. *)
Definition is_super_admin (email : string) (d : doc) : bool :=
  bool_decide (d !! "email" = str email) && bool_decide (d !! "role" = str "superAdmin").

(** An invite for this email that is still pending. *)
Definition pending_for (email : string) (d : doc) : bool :=
  bool_decide (d !! "email" = str email) && bool_decide (d !! "status" = str "pending").

(** An invite whose [expiresAt] lies after [now]. *)
Definition unexpired (now : Z) (d : doc) : bool :=
  match d !! "expiresAt" with
  | Some (VTime t) => bool_decide (now < t)%Z
  | _ => false
  end.

(** What [validateOnSignIn] decides from the snapshot of the user document. *)
Definition signIn_decision (userDoc : option doc) : result response :=
  match userDoc with
  | Some userData =>
      if bool_decide (userData !! "role" = str "superAdmin") then
        Ok (Some SuperAdminClaims)
      else if truthy (userData !! "role") && truthy (userData !! "orgId") then
        Ok (Some (MemberClaims (userData !! "role") (userData !! "orgId")))
      else Throw deactivated
  | None => Ok None
  end.

(** ** Materialisation *)

(** The user document written by [onUserCreated] at server time [now]. *)
Definition user_doc (now : Z) (email : string) (u : UserRecord)
    (role orgId : value) : doc :=
  <["updatedAt" := VTime now]> (<["createdAt" := VTime now]> (
  <["role" := role]> (<["orgId" := orgId]> (
  <["photoURL" := VStr (or_empty (photoURL u))]> (
  <["displayName" := VStr (or_empty (displayName u))]> (
  <["email" := VStr email]> ∅)))))).

(** The member count of an organisation document; a missing or
    non-numeric field counts as zero. *)
Definition member_count (d : doc) : Z :=
  match d !! "memberCount" with
  | Some (VNum n) => n
  | _ => 0
  end.

(** The three writes of the batch. *)
Definition materialisation_writes (email : string) (u : UserRecord)
    (inviteId : string) (role : value) (org : string) : list write :=
  [ WSet "users" (uid u)
      [ ("email", WVal (VStr email));
        ("displayName", WVal (VStr (or_empty (displayName u))));
        ("photoURL", WVal (VStr (or_empty (photoURL u))));
        ("orgId", WVal (VStr org));
        ("role", WVal role);
        ("createdAt", WServerTimestamp);
        ("updatedAt", WServerTimestamp) ];
    WUpdate "invites" inviteId [("status", WVal (VStr "accepted"))];
    WUpdate "orgs" org [("memberCount", WIncrement 1)] ].

(** The store once the user record exists, the invite is accepted and
    the organisation has one more member. *)
Definition materialised (now : Z) (email : string) (u : UserRecord)
    (inviteId : string) (invite : doc) (role : value) (org : string) (od : doc)
    (st : db) : db :=
  <["orgs" := <[org := <["memberCount" := VNum (member_count od + 1)]> od]> (coll st "orgs")]> (
  <["invites" := <[inviteId := <["status" := VStr "accepted"]> invite]> (coll st "invites")]> (
  <["users" := <[uid u := user_doc now email u role (VStr org)]> (coll st "users")]> st)).

(** Whether a backend fault strikes a batch of [n] writes. *)
Definition fault_hits (f : option nat) (n : nat) : bool :=
  match f with
  | Some k => bool_decide (k ≤ n)%nat
  | None => false
  end.

(** The situation in which the trigger has something to commit: a new
    identity with an email, whose first pending invite names a role
    and an existing organisation. *)
Definition materialisable (u : UserRecord) (w : world) (mail inviteId : string)
    (invite : doc) (role : value) (org : string) (od : doc) : Prop :=
  present (email u) = Some mail ∧
  uid u ≠ "" ∧
  coll (store w) "users" !! uid u = None ∧
  (∃ l, run_query (pendingInviteQuery mail) (store w) = (inviteId, invite) :: l) ∧
  invite !! "role" = Some role ∧
  invite !! "orgId" = Some (VStr org) ∧
  org ≠ "" ∧
  coll (store w) "orgs" !! org = Some od.

(** The world after a successful commit. *)
Definition committed (e : env) (u : UserRecord) (w : world) (mail inviteId : string)
    (invite : doc) (role : value) (org : string) (od : doc) : world :=
  World (materialised (clock e) mail u inviteId invite role org od (store w))
        (journal w ++ materialisation_writes mail u inviteId role org).

(** The expiry time and the creation time of an invite. *)
Definition expiry (d : doc) : Z :=
  match d !! "expiresAt" with
  | Some (VTime t) => t
  | _ => 0
  end.

Definition created (d : doc) : Z :=
  match d !! "createdAt" with
  | Some (VTime t) => t
  | _ => 0
  end.

(** ** Scenarios *)

Definition invite_doc (mail role org status : string) (createdAt expiresAt : Z) : doc :=
  {[ "email" := VStr mail; "role" := VStr role; "orgId" := VStr org;
     "status" := VStr status; "createdAt" := VTime createdAt;
     "expiresAt" := VTime expiresAt ]}.

(** Day 10: the invite of a@x.com expires on day 11, the invite of
    b@x.com expired on day 9; root@x.com is the bootstrapped super
    admin, and the role of uid2 has been cleared. *)
Definition today : env := {| clock := 10; fault := None |}.

Definition world1 : world :=
  {| store :=
       {[ "users" :=
            {[ "root" := {[ "email" := VStr "root@x.com"; "role" := VStr "superAdmin";
                            "orgId" := VNull ]};
               "uid2" := {[ "email" := VStr "c@x.com"; "orgId" := VStr "org1" ]} ]};
          "invites" :=
            {[ "inviteA" := invite_doc "a@x.com" "admin" "org1" "pending" 4 11;
               "inviteB" := invite_doc "b@x.com" "admin" "org1" "pending" 2 9 ]};
          "orgs" := {[ "org1" := {[ "name" := VStr "Org One"; "memberCount" := VNum 2 ]} ]} ]};
     journal := [] |}.

Definition user1 : UserRecord :=
  {| uid := "uid1"; email := Some "a@x.com"; displayName := Some "Ann"; photoURL := None |}.

Definition user3 : UserRecord :=
  {| uid := "uid3"; email := Some "b@x.com"; displayName := None; photoURL := None |}.

(** Three pending, unexpired invites for one email: inv1 has the
    smallest id, inv2 expires first, inv3 was created first. *)
Definition world3 : world :=
  {| store :=
       {[ "invites" :=
            {[ "inv1" := invite_doc "a@x.com" "viewer" "orgA" "pending" 3 30;
               "inv2" := invite_doc "a@x.com" "user" "orgB" "pending" 2 20;
               "inv3" := invite_doc "a@x.com" "admin" "orgC" "pending" 1 40 ]};
          "orgs" :=
            {[ "orgA" := {[ "memberCount" := VNum 0 ]};
               "orgB" := {[ "memberCount" := VNum 0 ]};
               "orgC" := {[ "memberCount" := VNum 0 ]} ]} ]};
     journal := [] |}.

(** The same, except that inv1 both has the smallest id and expires
    first; inv3 is still the one created first. *)
Definition world4 : world :=
  {| store :=
       {[ "invites" :=
            {[ "inv1" := invite_doc "a@x.com" "viewer" "orgA" "pending" 3 20;
               "inv2" := invite_doc "a@x.com" "user" "orgB" "pending" 2 30;
               "inv3" := invite_doc "a@x.com" "admin" "orgC" "pending" 1 40 ]};
          "orgs" :=
            {[ "orgA" := {[ "memberCount" := VNum 0 ]};
               "orgB" := {[ "memberCount" := VNum 0 ]};
               "orgC" := {[ "memberCount" := VNum 0 ]} ]} ]};
     journal := [] |}.

(** Following the spec's words for C8: the invite both hooks are to
    pick is the pending unexpired one with the earliest [createdAt]. *)
Definition earliest_created (now : Z) (mail : string) (st : db) (id : string) (d : doc) : Prop :=
  coll st "invites" !! id = Some d ∧
  pending_for mail d && unexpired now d = true ∧
  map_Forall (λ _ d', pending_for mail d' && unexpired now d' = true →
                (created d ≤ created d')%Z)
             (coll st "invites").

(** Closed goals are settled by evaluation. *)
Ltac by_computation := vm_compute; reflexivity.
Ltac decide_by_computation := apply (bool_decide_unpack _); vm_compute; exact I.

(** ** Further scenarios and invariants *)

(** The number of user records bound to an organisation. *)
Definition user_count (org : string) (users : collection) : nat :=
  size (filter (λ kv, kv.2 !! "orgId" = Some (VStr org)) users).

(** Every organisation's member count is the number of its user records. *)
Definition counts_consistent (st : db) : Prop :=
  map_Forall (λ org od, member_count od = Z.of_nat (user_count org (coll st "users")))
             (coll st "orgs").

(** An invite document whose organisation does not exist. *)
Definition world_orphan : world :=
  {| store :=
       {[ "invites" :=
            {[ "inviteA" := invite_doc "a@x.com" "admin" "org1" "pending" 4 11 ]} ]};
     journal := [] |}.

(** A member of org1, and a record that kept its role but lost its
    organisation; org1 counts its one member. *)
Definition world5 : world :=
  {| store :=
       {[ "users" :=
            {[ "uid5" := {[ "email" := VStr "e@x.com"; "role" := VStr "user";
                            "orgId" := VStr "org1" ]};
               "uid6" := {[ "email" := VStr "f@x.com"; "role" := VStr "admin" ]} ]};
          "invites" :=
            {[ "inviteG" := invite_doc "g@x.com" "viewer" "org1" "pending" 4 11 ]};
          "orgs" := {[ "org1" := {[ "name" := VStr "Org One"; "memberCount" := VNum 1 ]} ]} ]};
     journal := [] |}.

Definition user7 : UserRecord :=
  {| uid := "uid7"; email := Some "g@x.com"; displayName := None; photoURL := None |}.

(** ** The API routes

    The route handlers of the Next.js app ([app/api/orgs/route.ts],
    [app/api/invites/route.ts], [app/api/user/org/route.ts]) run
    against the same Firestore.  What they get from outside is a
    request (the authorization header and the parsed JSON object of
    the body, whose fields are JSON scalars) and three services of the
    platform. *)

Record request : Type := {
  authorization : option string;
  (** [None]: [request.json()] rejects *)
  json_body : option doc
}.

Record platform : Type := {
  (** [getAuth().verifyIdToken]: the decoded token, [None] when the
      promise rejects *)
  verifyIdToken : string → option doc;
  (** the document id [add] generates *)
  autoId : string;
  (** [d.setDate(d.getDate() + n)] on the date [d] *)
  plusDays : Z → Z → Z
}.

(** [s.slice(n)] *)
Fixpoint slice (n : nat) (s : string) : string :=
  match n, s with
  | O, _ => s
  | S n', String _ s' => slice n' s'
  | S _, EmptyString => EmptyString
  end.

(** [authHeader?.startsWith("Bearer ") ? authHeader.slice(7) : null] *)
Definition bearer_token (authHeader : option string) : option string :=
  match authHeader with
  | Some h => if String.prefix "Bearer " h then Some (slice 7 h) else None
  | None => None
  end.

(** A value that passes the [!x] guard. *)
Definition provided (v : option value) : option value :=
  if truthy v then v else None.

(** The same function appears in both the organisations and the
    invites route. *)
Definition verifySuperAdmin (p : platform) (request : request) : option doc :=
  match present (bearer_token (authorization request)) with
  | None => None
  | Some token =>
      match verifyIdToken p token with
      | Some decoded => if truthy (decoded !! "superAdmin") then Some decoded else None
      | None => None
      end
  end.

(** What a handler sends back. *)
Inductive json : Type :=
  | JError (error : string)
  | JOrgId (orgId : string)
  | JInviteId (inviteId : string)
  | JOrg (org : option (string * option value * option value)).

Record http_response : Type := {
  status : nat;
  body : json
}.

(** A handler resolves with a value or rejects. *)
Inductive failure : Type :=
  | SdkFailure (e : error)
  | AlreadyExists
  | InvalidBody
  | InvalidToken.

Inductive outcome (A : Type) : Type :=
  | Resolved (a : A)
  | Rejected (f : failure).
Arguments Resolved {A} a.
Arguments Rejected {A} f.

Definition Handler (A : Type) : Type := world → outcome A * world.

Definition respond (status : nat) (body : json) : Handler http_response :=
  λ w, (Resolved {| status := status; body := body |}, w).

Definition reject {A} (f : failure) : Handler A := λ w, (Rejected f, w).

(** [await] of a Firestore call inside a handler. *)
Definition await {A B} (m : M A) (k : A → Handler B) : Handler B :=
  λ w, match m w with
       | (Ok a, w') => k a w'
       | (Throw e, w') => (Rejected (SdkFailure e), w')
       end.

Definition and_then {A B} (m : Handler A) (k : A → Handler B) : Handler B :=
  λ w, match m w with
       | (Resolved a, w') => k a w'
       | (Rejected f, w') => (Rejected f, w')
       end.

(** [try { m } catch { handler }] *)
Definition try_catch {A} (m : Handler A) (handler : Handler A) : Handler A :=
  λ w, match m w with
       | (Rejected _, w') => handler w'
       | settled => settled
       end.

Notation "'await!' x := m 'in' k" := (await m (λ x, k))
  (at level 100, x name, m at next level, k at level 200, right associativity).

(** [db.collection(c).add(data)]: creates the document under a
    generated id and resolves with that id. *)
Definition collection_add (p : platform) (e : env) (c : string)
    (data : list (string * option wvalue)) : Handler string :=
  match validate data with
  | None => reject (SdkFailure InvalidData)
  | Some fields =>
      λ w, match coll (store w) c !! autoId p with
           | Some _ => (Rejected AlreadyExists, w)
           | None =>
               match stage (fault e) (clock e) [WSet c (autoId p) fields] (store w) with
               | inl err => (Rejected (SdkFailure err), w)
               | inr st' =>
                   (Resolved (autoId p),
                    {| store := st';
                       journal := journal w ++ [WSet c (autoId p) fields] |})
               end
           end
  end.

Module OrgsRoute.

Definition slugQuery (slug : value) : query :=
  {| q_coll := "orgs"; q_where := [WhereEq "slug" slug]; q_limit := 1 |}.

Definition POST (p : platform) (e : env) (request : request) : Handler http_response :=
  match verifySuperAdmin p request with
  | None => respond 403 (JError "Forbidden")
  | Some user =>
      match json_body request with
      | None => reject InvalidBody
      | Some fields =>
          match provided (fields !! "name"), provided (fields !! "slug") with
          | Some name, Some slug =>
              await! existing := query_get (slugQuery slug) in
              match existing with
              | _ :: _ =>
                  respond 409 (JError "An organization with this slug already exists")
              | [] =>
                  and_then
                    (collection_add p e "orgs"
                       [ ("name", Some (WVal name));
                         ("slug", Some (WVal slug));
                         ("createdBy", WVal <$> user !! "uid");
                         ("createdAt", Some WServerTimestamp);
                         ("memberCount", Some (WVal (VNum 0))) ])
                    (λ orgRef, respond 200 (JOrgId orgRef))
              end
          | _, _ => respond 400 (JError "Name and slug are required")
          end
      end
  end.

End OrgsRoute.

Module InvitesRoute.

Definition VALID_ROLES : list string := ["viewer"; "user"; "admin"].
Definition INVITE_EXPIRY_DAYS : Z := 7.

Definition existingInviteQuery (email : value) : query :=
  {| q_coll := "invites";
     q_where := [WhereEq "email" email; WhereEq "status" (VStr "pending")];
     q_limit := 1 |}.

(** [VALID_ROLES.includes(role)] *)
Definition valid_role (role : value) : bool :=
  match role with
  | VStr r => bool_decide (r ∈ VALID_ROLES)
  | _ => false
  end.

Definition POST (p : platform) (e : env) (request : request) : Handler http_response :=
  match verifySuperAdmin p request with
  | None => respond 403 (JError "Forbidden")
  | Some user =>
      match json_body request with
      | None => reject InvalidBody
      | Some fields =>
          match provided (fields !! "email"), provided (fields !! "orgId"),
                provided (fields !! "role") with
          | Some email, Some orgId, Some role =>
              if negb (valid_role role) then
                respond 400
                  (JError ("Role must be one of: " ++ String.concat ", " VALID_ROLES))
              else
                await! orgRef := doc_ref "orgs" (Some orgId) in
                await! orgDoc := doc_get orgRef in
                match orgDoc with
                | None => respond 404 (JError "Organization not found")
                | Some _ =>
                    await! existingInvite := query_get (existingInviteQuery email) in
                    match existingInvite with
                    | _ :: _ =>
                        respond 409
                          (JError "A pending invite already exists for this email")
                    | [] =>
                        let expiresAt := plusDays p (clock e) INVITE_EXPIRY_DAYS in
                        and_then
                          (collection_add p e "invites"
                             [ ("email", Some (WVal email));
                               ("orgId", Some (WVal orgId));
                               ("role", Some (WVal role));
                               ("invitedBy", WVal <$> user !! "uid");
                               ("status", Some (WVal (VStr "pending")));
                               ("expiresAt", Some (WVal (VTime expiresAt)));
                               ("createdAt", Some WServerTimestamp) ])
                          (λ inviteRef, respond 200 (JInviteId inviteRef))
                    end
                end
          | _, _, _ => respond 400 (JError "Email, orgId, and role are required")
          end
      end
  end.

End InvitesRoute.

Module UserOrgRoute.

Definition GET (p : platform) (request : request) : Handler http_response :=
  match present (bearer_token (authorization request)) with
  | None => respond 401 (JError "Unauthorized")
  | Some token =>
      try_catch
        (match verifyIdToken p token with
         | None => reject InvalidToken
         | Some decoded =>
             match provided (decoded !! "orgId") with
             | None => respond 200 (JOrg None)
             | Some orgId =>
                 await! orgRef := doc_ref "orgs" (Some orgId) in
                 await! orgDoc := doc_get orgRef in
                 match orgDoc with
                 | None => respond 200 (JOrg None)
                 | Some orgData =>
                     respond 200
                       (JOrg (Some (orgRef.2, orgData !! "name", orgData !! "slug")))
                 end
             end
         end)
        (respond 401 (JError "Invalid token"))
  end.

End UserOrgRoute.

(** A platform whose tokens are the uids themselves: "root" is the super
    admin, "uid5" a member of org1. *)
Definition platform1 : platform :=
  {| verifyIdToken := λ token,
       if String.eqb token "root" then
         Some {[ "uid" := VStr "root"; "superAdmin" := VBool true ]}
       else if String.eqb token "uid5" then
         Some {[ "uid" := VStr "uid5"; "role" := VStr "user"; "orgId" := VStr "org1" ]}
       else None;
     autoId := "auto1";
     plusDays := λ t n, (t + n)%Z |}.

Definition invite_request (token : string) (mail org role : string) : request :=
  {| authorization := Some ("Bearer " ++ token)%string;
     json_body := Some {[ "email" := VStr mail; "orgId" := VStr org; "role" := VStr role ]} |}.

(** An invite that is pending for an email given as a JSON value. *)
Definition pending_with (email : value) (d : doc) : bool :=
  bool_decide (d !! "email" = Some email) && bool_decide (d !! "status" = str "pending").

(** The invite document the invites route writes at time [now]. *)
Definition new_invite (now expiresAt : Z) (email : value) (org : string)
    (role invitedBy : value) : doc :=
  <["createdAt" := VTime now]> (<["expiresAt" := VTime expiresAt]> (
  <["status" := VStr "pending"]> (<["invitedBy" := invitedBy]> (
  <["role" := role]> (<["orgId" := VStr org]> (<["email" := email]> ∅)))))).

Definition new_invite_write (p : platform) (e : env) (email : value) (org : string)
    (role invitedBy : value) : write :=
  WSet "invites" (autoId p)
    [ ("email", WVal email); ("orgId", WVal (VStr org)); ("role", WVal role);
      ("invitedBy", WVal invitedBy); ("status", WVal (VStr "pending"));
      ("expiresAt", WVal (VTime (plusDays p (clock e) InvitesRoute.INVITE_EXPIRY_DAYS)));
      ("createdAt", WServerTimestamp) ].

(** The world once the invite is stored. *)
Definition invited (p : platform) (e : env) (w : world) (email : value) (org : string)
    (role invitedBy : value) : world :=
  {| store :=
       <["invites" :=
           <[autoId p := new_invite (clock e)
                           (plusDays p (clock e) InvitesRoute.INVITE_EXPIRY_DAYS)
                           email org role invitedBy]> (coll (store w) "invites")]> (store w);
     journal := journal w ++ [new_invite_write p e email org role invitedBy] |}.

(** The requests the invites route accepts: a super admin asks for an
    invite with an email, a valid role and an existing organisation,
    and no invite is pending for the email. *)
Definition can_invite (p : platform) (r : request) (w : world) (email : value)
    (org : string) (role invitedBy : value) : Prop :=
  ∃ user fields,
    verifySuperAdmin p r = Some user ∧
    json_body r = Some fields ∧
    fields !! "email" = Some email ∧ truthy (Some email) = true ∧
    fields !! "orgId" = Some (VStr org) ∧ org ≠ "" ∧
    fields !! "role" = Some role ∧ InvitesRoute.valid_role role = true ∧
    user !! "uid" = Some invitedBy ∧
    is_Some (coll (store w) "orgs" !! org) ∧
    map_Forall (λ _ d, pending_with email d = false) (coll (store w) "invites") ∧
    coll (store w) "invites" !! autoId p = None.

(** At most one invite is pending per email. *)
Definition pending_unique (st : db) : Prop :=
  ∀ email id1 d1 id2 d2,
    coll st "invites" !! id1 = Some d1 → coll st "invites" !! id2 = Some d2 →
    pending_with email d1 = true → pending_with email d2 = true → id1 = id2.

(** The organisation document the organisations route writes. *)
Definition new_org (now : Z) (name slug createdBy : value) : doc :=
  <["memberCount" := VNum 0]> (<["createdAt" := VTime now]> (
  <["createdBy" := createdBy]> (<["slug" := slug]> (<["name" := name]> ∅)))).

(** No two organisations share a slug. *)
Definition slugs_unique (st : db) : Prop :=
  ∀ slug id1 d1 id2 d2,
    coll st "orgs" !! id1 = Some d1 → coll st "orgs" !! id2 = Some d2 →
    d1 !! "slug" = Some slug → d2 !! "slug" = Some slug → id1 = id2.

(** A request to create an organisation. *)
Definition org_request (token name slug : string) : request :=
  {| authorization := Some ("Bearer " ++ token)%string;
     json_body := Some {[ "name" := VStr name; "slug" := VStr slug ]} |}.

(** ** The bootstrap script

    [scripts/bootstrap-super-admin.ts] promotes an identity to super
    admin.  The Auth service of the Admin SDK is a collaborator: each
    of its calls resolves or rejects. *)

Record auth_service : Type := {
  (** [auth.getUser(uid)]; [None] when it rejects *)
  getUser : string → option UserRecord;
  (** [auth.createUser({ email, password, emailVerified: true })] *)
  createUser : string → string → option UserRecord;
  (** [auth.setCustomUserClaims(uid, claims)]; [false] when it rejects *)
  setCustomUserClaims : string → claims → bool
}.

Inductive exit_status : Type :=
  | Completed
  | Exited (code : nat).

(** [args.indexOf(x)], with [None] for -1 *)
Fixpoint indexOf (x : string) (args : list string) : option nat :=
  match args with
  | [] => None
  | y :: rest => if String.eqb y x then Some O else S <$> indexOf x rest
  end.

(** [idx >= 0 ? args[idx + 1] : undefined] *)
Definition argument (flag : string) (args : list string) : option string :=
  match indexOf flag args with
  | Some idx => args !! S idx
  | None => None
  end.

(** [ref.set(data, { merge: true })]: writes the given fields and keeps
    the others; it creates the document when there is none. *)
Definition set_merge (e : env) (r : string * string)
    (data : list (string * option wvalue)) : M unit :=
  match validate data with
  | None => throw InvalidData
  | Some fields =>
      λ w,
        let wr := match coll (store w) r.1 !! r.2 with
                  | Some _ => WUpdate r.1 r.2 fields
                  | None => WSet r.1 r.2 fields
                  end in
        match stage (fault e) (clock e) [wr] (store w) with
        | inl err => (Throw err, w)
        | inr st' => (Ok tt, {| store := st'; journal := journal w ++ [wr] |})
        end
  end.

Definition SUPER_ADMIN_CLAIMS : claims := SuperAdminClaims.

Definition super_admin_fields (now : Z) (emailForDoc displayName photoURL : string)
    : list (string * option wvalue) :=
  [ ("email", Some (WVal (VStr emailForDoc)));
    ("displayName", Some (WVal (VStr displayName)));
    ("photoURL", Some (WVal (VStr photoURL)));
    ("orgId", Some (WVal VNull));
    ("role", Some (WVal (VStr "superAdmin")));
    ("createdAt", Some (WVal (VTime now)));
    ("updatedAt", Some (WVal (VTime now))) ].

(** [main().catch(...)]: the script as a whole.  [None] in the first
    step stands for the usage message or a rejected Auth call, both of
    which end in [process.exit(1)]. *)
Definition main (auth : auth_service) (e : env) (args : list string)
    : world → exit_status * world :=
  let emailArg := argument "--email" args in
  let passwordArg := argument "--password" args in
  let uidArg := argument "--uid" args in
  let identity : option (string * string * string * string) :=
    match present uidArg with
    | Some uidArg =>
        user ← getUser auth uidArg;
        Some (uid user, default "" (email user),
              default "" (displayName user), default "" (photoURL user))
    | None =>
        match present emailArg, present passwordArg with
        | Some emailArg, Some passwordArg =>
            created ← createUser auth emailArg passwordArg;
            Some (uid created, default emailArg (email created),
                  default "" (displayName created), default "" (photoURL created))
        | _, _ => None
        end
    end in
  match identity with
  | None => λ w, (Exited 1, w)
  | Some (uid, emailForDoc, displayName, photoURL) =>
      if setCustomUserClaims auth uid SUPER_ADMIN_CLAIMS then
        λ w,
          match (userRef <- doc_ref "users" (str uid) ;;
                 set_merge e userRef
                   (super_admin_fields (clock e) emailForDoc displayName photoURL)) w with
          | (Ok _, w') => (Completed, w')
          | (Throw _, w') => (Exited 1, w')
          end
      else λ w, (Exited 1, w)
  end.

(** An Auth service that knows the identity "root2" and creates
    "new1" for any email and password. *)
Definition auth1 : auth_service :=
  {| getUser := λ id,
       if String.eqb id "root2" then
         Some {| uid := "root2"; email := Some "boss@x.com"; displayName := Some "Boss";
                 photoURL := None |}
       else None;
     createUser := λ mail _,
       Some {| uid := "new1"; email := Some mail; displayName := None; photoURL := None |};
     setCustomUserClaims := λ _ _, true |}.

(** The document after the merge: the seven fields of the script, and
    whatever else the document held. *)
Definition bootstrapped_doc (now : Z) (old : doc) (emailForDoc displayName photoURL : string)
    : doc :=
  <["updatedAt" := VTime now]> (<["createdAt" := VTime now]> (
  <["role" := VStr "superAdmin"]> (<["orgId" := VNull]> (
  <["photoURL" := VStr photoURL]> (<["displayName" := VStr displayName]> (
  <["email" := VStr emailForDoc]> old)))))).

(** The identity the script works on: the one [getUser] returns for
    the [--uid] argument, or else the one [createUser] returns for the
    [--email] and [--password] arguments. *)
Definition promoted (auth : auth_service) (args : list string) (id emailForDoc : string)
    : Prop :=
  (∃ uidArg user,
     present (argument "--uid" args) = Some uidArg ∧
     getUser auth uidArg = Some user ∧
     id = uid user ∧ emailForDoc = default "" (email user)) ∨
  (∃ emailArg passwordArg created,
     present (argument "--uid" args) = None ∧
     present (argument "--email" args) = Some emailArg ∧
     present (argument "--password" args) = Some passwordArg ∧
     createUser auth emailArg passwordArg = Some created ∧
     id = uid created ∧ emailForDoc = default emailArg (email created)).

(** * Properties of the Firestore model *)

(** ** The result order is a total preorder *)

Lemma str_lt_trans s t u : str_lt s t → str_lt t u → str_lt s u.
Proof.
  intros [Hst Hne] [Htu Hne']. split; [by etrans|].
  intros ->. apply Hne. by apply (anti_symm String.le).
Qed.

Lemma str_trichotomy s t : str_lt s t ∨ s = t ∨ str_lt t s.
Proof.
  destruct (decide (s = t)) as [->|Hne]; [by right; left|].
  unfold str_lt. destruct (total String.le s t); [left|right; right]; split; done.
Qed.

Lemma key_lt_trans a b c : key_lt a b → key_lt b c → key_lt a c.
Proof.
  unfold key_lt.
  intros [?|[? [?|[? Hs]]]] [?|[? [?|[? Hs']]]];
    try (left; lia); right; (split; [lia|]);
    try (left; lia).
  right. split; [lia|]. by eapply str_lt_trans.
Qed.

Lemma key_trichotomy a b : key_lt a b ∨ a = b ∨ key_lt b a.
Proof.
  destruct a as [[a1 a2] a3], b as [[b1 b2] b3]. unfold key_lt. simpl.
  destruct (Z.lt_trichotomy a1 b1) as [?|[->|?]]; [tauto| |tauto].
  destruct (Z.lt_trichotomy a2 b2) as [?|[->|?]]; [tauto| |tauto].
  destruct (str_trichotomy a3 b3) as [?|[->|?]]; tauto.
Qed.

#[global] Instance entry_le_total o : Total (entry_le o).
Proof.
  intros x y. destruct o as [f|]; simpl; [|apply (total String.le)].
  destruct (key_trichotomy (vkey (x.2 !! f)) (vkey (y.2 !! f))) as [?|[Heq|?]];
    [by left; left| |by right; left].
  destruct (total String.le x.1 y.1); [left|right]; right; by split.
Qed.

#[global] Instance entry_le_trans o : Transitive (entry_le o).
Proof.
  intros x y z. destruct o as [f|]; simpl; [|apply (transitivity (R:=String.le))].
  intros [Hxy|[Hxy Hid]] [Hyz|[Hyz Hid']].
  - left. by eapply key_lt_trans.
  - left. by rewrite <-Hyz.
  - left. by rewrite Hxy.
  - right. split; [congruence|by etrans].
Qed.

(** ** What a query returns *)

Section queries.

Variables (q : query) (st : db).

Lemma elem_of_candidates id d :
  (id, d) ∈ candidates q st ↔
  coll st (q_coll q) !! id = Some d ∧ matches_all (q_where q) d = true.
Proof.
  unfold candidates. rewrite list_elem_of_filter, elem_of_map_to_list. simpl.
  rewrite Is_true_true. tauto.
Qed.

Lemma NoDup_candidates : NoDup (candidates q st).
Proof. apply NoDup_filter, NoDup_map_to_list. Qed.

Lemma run_query_sorted :
  StronglySorted (entry_le (order_field (q_where q)))
                 (merge_sort (entry_le (order_field (q_where q))) (candidates q st)).
Proof. apply StronglySorted_merge_sort; apply _. Qed.

(** The first document of the snapshot is a matching document... *)
Lemma run_query_head x l :
  run_query q st = x :: l → x ∈ candidates q st.
Proof.
  unfold run_query. intros Hq.
  rewrite <-(merge_sort_Permutation (entry_le (order_field (q_where q)))).
  assert (x ∈ take (q_limit q)
    (merge_sort (entry_le (order_field (q_where q))) (candidates q st))) as Hin
    by (rewrite Hq; left).
  apply elem_of_take in Hin as (i & Hi & _). by eapply list_elem_of_lookup_2.
Qed.

(** ... and no matching document comes before it in result order. *)
Lemma run_query_head_least x l y :
  run_query q st = x :: l → y ∈ candidates q st →
  entry_le (order_field (q_where q)) x y.
Proof.
  unfold run_query. intros Hq Hy.
  rewrite <-(merge_sort_Permutation (entry_le (order_field (q_where q)))) in Hy.
  pose proof run_query_sorted as Hs.
  destruct (merge_sort _ (candidates q st)) as [|z zs]; [by apply elem_of_nil in Hy|].
  destruct (q_limit q); simplify_eq/=.
  apply elem_of_cons in Hy as [->|Hy].
  - destruct (total (entry_le (order_field (q_where q))) x x); done.
  - apply StronglySorted_inv in Hs as [_ Hall].
    by eapply Forall_forall in Hall.
Qed.

Lemma run_query_nil :
  (∀ id d, coll st (q_coll q) !! id = Some d → matches_all (q_where q) d = false) →
  run_query q st = [].
Proof.
  intros Hno. unfold run_query.
  assert (candidates q st = []) as ->; [|by destruct (q_limit q)].
  destruct (candidates q st) as [|[id d] l] eqn:Hc; [done|].
  assert ((id, d) ∈ candidates q st) as Hin by (rewrite Hc; left).
  apply elem_of_candidates in Hin as [Hl Hm].
  rewrite (Hno _ _ Hl) in Hm. done.
Qed.

Lemma run_query_cons x :
  x ∈ candidates q st → q_limit q ≠ 0%nat → ∃ y l, run_query q st = y :: l.
Proof.
  intros Hx Hlim. unfold run_query.
  rewrite <-(merge_sort_Permutation (entry_le (order_field (q_where q)))) in Hx.
  destruct (merge_sort _ (candidates q st)) as [|z zs]; [by apply elem_of_nil in Hx|].
  destruct (q_limit q); [congruence|]. simpl. eauto.
Qed.

(** A single matching document is the whole snapshot. *)
Lemma run_query_unique id d :
  coll st (q_coll q) !! id = Some d → matches_all (q_where q) d = true →
  (∀ id' d', coll st (q_coll q) !! id' = Some d' →
             matches_all (q_where q) d' = true → id' = id) →
  q_limit q ≠ 0%nat →
  run_query q st = [(id, d)].
Proof.
  intros Hl Hm Huniq Hlim.
  assert (candidates q st = [(id, d)]) as Hc.
  { pose proof NoDup_candidates as Hnd.
    assert (∀ y, y ∈ candidates q st → y = (id, d)) as Hall.
    { intros [id' d'] [Hl' Hm']%elem_of_candidates.
      pose proof (Huniq _ _ Hl' Hm') as ->. congruence. }
    assert ((id, d) ∈ candidates q st) as Hin by by apply elem_of_candidates.
    destruct (candidates q st) as [|y [|z l]].
    - by apply elem_of_nil in Hin.
    - f_equal. apply Hall. left.
    - exfalso. apply NoDup_cons in Hnd as [Hnotin _]. apply Hnotin.
      rewrite (Hall y) by left. rewrite (Hall z) by (right; left). left. }
  unfold run_query. rewrite Hc.
  pose proof (merge_sort_Permutation (entry_le (order_field (q_where q))) [(id, d)]) as Hp.
  apply Permutation_singleton_r in Hp as ->.
  destruct (q_limit q) as [|[|n]]; [congruence|done..].
Qed.

End queries.

Lemma superAdminQuery_matches email d :
  matches_all (q_where (superAdminQuery email)) d = is_super_admin email d.
Proof. unfold matches_all, is_super_admin. simpl. by rewrite andb_true_r. Qed.

Lemma pendingInviteQuery_matches email d :
  matches_all (q_where (pendingInviteQuery email)) d = pending_for email d.
Proof. unfold matches_all, pending_for. simpl. by rewrite andb_true_r. Qed.

Lemma validInviteQuery_matches email now d :
  matches_all (q_where (validInviteQuery email now)) d
  = pending_for email d && unexpired now d.
Proof.
  unfold matches_all, pending_for, unexpired. simpl.
  rewrite andb_true_r, <-andb_assoc. do 2 f_equal.
  destruct (d !! "expiresAt") as [[]|]; simpl; try done.
  apply bool_decide_ext. unfold key_lt, str_lt. simpl. intuition lia.
Qed.

Lemma present_Some s : s ≠ "" → present (Some s) = Some s.
Proof. by destruct s. Qed.

Lemma present_nonempty o s : present o = Some s → o = Some s ∧ s ≠ "".
Proof. destruct o as [[]|]; naive_solver. Qed.

(** * The blocking functions *)

Section blocking.
Variables (e : env) (w : world).

Lemma checkInviteOnCreate_superAdmin email :
  email ≠ "" →
  run_query (superAdminQuery email) (store w) ≠ [] →
  checkInviteOnCreate e (Some email) w = (Ok (Some SuperAdminClaims), w).
Proof.
  intros Hne Hq. unfold checkInviteOnCreate. rewrite present_Some by done.
  unfold bind, query_get. simpl.
  by destruct (run_query (superAdminQuery email) (store w)).
Qed.

Lemma checkInviteOnCreate_invite email :
  email ≠ "" →
  run_query (superAdminQuery email) (store w) = [] →
  checkInviteOnCreate e (Some email) w =
    match run_query (validInviteQuery email (clock e)) (store w) with
    | [] => (Throw no_invitation, w)
    | (_, invite) :: _ =>
        (Ok (Some (MemberClaims (invite !! "role") (invite !! "orgId"))), w)
    end.
Proof.
  intros Hne Hq. unfold checkInviteOnCreate. rewrite present_Some by done.
  unfold bind, query_get. simpl. rewrite Hq.
  by destruct (run_query (validInviteQuery email (clock e)) (store w)) as [|[??]?].
Qed.

Lemma no_super_admin email :
  map_Forall (λ _ d, is_super_admin email d = false) (coll (store w) "users") →
  run_query (superAdminQuery email) (store w) = [].
Proof.
  intros Hno. apply run_query_nil. intros id d Hl.
  rewrite superAdminQuery_matches. by eapply Hno.
Qed.

Lemma validateOnSignIn_eval uid email :
  validateOnSignIn e uid email w =
    match present uid, present email with
    | Some uid, Some _ => (signIn_decision (coll (store w) "users" !! uid), w)
    | _, _ => (Throw email_required, w)
    end.
Proof.
  unfold validateOnSignIn.
  destruct (present uid) as [u|] eqn:Hu; [|done].
  destruct (present email) as [m|]; [|done].
  apply present_nonempty in Hu as [_ Hu].
  unfold bind, doc_ref, str. rewrite (proj2 (String.eqb_neq u "")) by done.
  simpl. unfold doc_get, signIn_decision, ret, throw, str. simpl.
  destruct (coll (store w) "users" !! u) as [d|]; [|done].
  repeat case_match; done.
Qed.

Lemma validateOnSignIn_lookup uid email :
  uid ≠ "" → email ≠ "" →
  validateOnSignIn e (Some uid) (Some email) w =
    (signIn_decision (coll (store w) "users" !! uid), w).
Proof. intros. by rewrite validateOnSignIn_eval, !present_Some. Qed.

End blocking.

(** C1: an email with no super-role user record and no invite that is
    both pending and unexpired is refused by [checkInviteOnCreate] with
    the permission error of the missing invitation, and nothing is
    written; an expired invite that is still pending does not help. *)
Theorem checkInviteOnCreate_rejects_uninvited (e : env) (w : world) (email : string) :
  email ≠ "" →
  map_Forall (λ _ d, is_super_admin email d = false) (coll (store w) "users") →
  map_Forall (λ _ d, pending_for email d && unexpired (clock e) d = false)
             (coll (store w) "invites") →
  checkInviteOnCreate e (Some email) w =
    (Throw (HttpsError "permission-denied" "No valid invitation found for this email."), w).
Proof.
  intros Hne Hsuper Hinv.
  rewrite checkInviteOnCreate_invite by auto using no_super_admin.
  rewrite run_query_nil; [done|].
  intros id d Hl. rewrite validInviteQuery_matches. by eapply Hinv.
Qed.

(** C1 on day 10: the invite of b@x.com expired on day 9 and is still
    pending, and the sign-up is refused. *)
Lemma checkInviteOnCreate_rejects_uninvited_witness :
  checkInviteOnCreate today (Some "b@x.com") world1 =
    (Throw (HttpsError "permission-denied" "No valid invitation found for this email."),
     world1).
Proof.
  apply (checkInviteOnCreate_rejects_uninvited today world1 "b@x.com").
  - discriminate.
  - decide_by_computation.
  - decide_by_computation.
Defined.

(** C2: an email that has a user record of role superAdmin is approved
    by [checkInviteOnCreate] with the super-admin claims, whatever the
    invites collection holds. *)
Theorem checkInviteOnCreate_approves_superAdmin
    (e : env) (w : world) (email id : string) (d : doc) :
  email ≠ "" →
  coll (store w) "users" !! id = Some d →
  is_super_admin email d = true →
  checkInviteOnCreate e (Some email) w = (Ok (Some SuperAdminClaims), w).
Proof.
  intros Hne Hl Hs. apply checkInviteOnCreate_superAdmin; [done|].
  destruct (run_query_cons (superAdminQuery email) (store w) (id, d)) as (y & l & ->);
    [|done..].
  apply elem_of_candidates. by rewrite superAdminQuery_matches.
Qed.

(** C2 for the bootstrapped super admin, who has no invite. *)
Lemma checkInviteOnCreate_approves_superAdmin_witness :
  checkInviteOnCreate today (Some "root@x.com") world1 = (Ok (Some SuperAdminClaims), world1).
Proof.
  apply (checkInviteOnCreate_approves_superAdmin today world1 "root@x.com" "root"
           {[ "email" := VStr "root@x.com"; "role" := VStr "superAdmin"; "orgId" := VNull ]}).
  - discriminate.
  - by_computation.
  - by_computation.
Defined.

(** C4: [validateOnSignIn] keeps an absent record apart from an empty
    one: without a user record the sign-in is approved with no claims
    and nothing is written; with a record whose role is empty or
    missing it is refused with the deactivation error. *)
Theorem validateOnSignIn_absent_vs_empty (e : env) (w : world) (uid email : string) :
  uid ≠ "" → email ≠ "" →
  (coll (store w) "users" !! uid = None →
     validateOnSignIn e (Some uid) (Some email) w = (Ok None, w)) ∧
  (∀ d, coll (store w) "users" !! uid = Some d → truthy (d !! "role") = false →
     validateOnSignIn e (Some uid) (Some email) w =
       (Throw (HttpsError "permission-denied"
          "Your account has been deactivated. Contact an administrator."), w)) ∧
  (is_Some (coll (store w) "users" !! uid) →
     (validateOnSignIn e (Some uid) (Some email) w).1 ≠ Ok None).
Proof.
  intros Hu He. split; [|split].
  - intros Hl. by rewrite validateOnSignIn_lookup, Hl.
  - intros d Hl Hrole. rewrite validateOnSignIn_lookup, Hl by done.
    simpl. rewrite Hrole. simpl. case_bool_decide as Hsup; [|done].
    by rewrite Hsup in Hrole.
  - intros [d Hl]. rewrite validateOnSignIn_lookup, Hl by done.
    simpl. repeat case_match; done.
Qed.

(** C4 for uid1, who has no record yet, and uid2, whose role was cleared. *)
Lemma validateOnSignIn_absent_vs_empty_witness :
  validateOnSignIn today (Some "uid1") (Some "a@x.com") world1 = (Ok None, world1) ∧
  validateOnSignIn today (Some "uid2") (Some "c@x.com") world1 =
    (Throw (HttpsError "permission-denied"
       "Your account has been deactivated. Contact an administrator."), world1).
Proof.
  split.
  - apply (validateOnSignIn_absent_vs_empty today world1 "uid1" "a@x.com");
      [discriminate|discriminate|by_computation].
  - apply (validateOnSignIn_absent_vs_empty today world1 "uid2" "c@x.com")
      with (d := {[ "email" := VStr "c@x.com"; "orgId" := VStr "org1" ]});
      [discriminate|discriminate|by_computation|by_computation].
Defined.

Lemma invoke_times_read_only {A} (m : M A) (w : world) (n : nat) :
  (m w).2 = w → invoke_times n m w = w.
Proof. intros Hm. induction n as [|n IH]; simpl; [done|]. by rewrite Hm. Qed.

(** C9: both blocking functions only read: whatever their input, the
    store and the journal of writes are left as they were, however many
    times they are invoked, and the outcome is a function of the store
    alone. *)
Theorem blocking_functions_read_only (e : env) (w : world) :
  (∀ email, (checkInviteOnCreate e email w).2 = w) ∧
  (∀ uid email, (validateOnSignIn e uid email w).2 = w) ∧
  (∀ n email, invoke_times n (checkInviteOnCreate e email) w = w) ∧
  (∀ n uid email, invoke_times n (validateOnSignIn e uid email) w = w) ∧
  (∀ email j, (checkInviteOnCreate e email (World (store w) j)).1
              = (checkInviteOnCreate e email w).1) ∧
  (∀ uid email j, (validateOnSignIn e uid email (World (store w) j)).1
                  = (validateOnSignIn e uid email w).1).
Proof.
  assert (∀ email, (checkInviteOnCreate e email w).2 = w) as Hcreate.
  { intros email. unfold checkInviteOnCreate, bind, query_get, ret, throw.
    repeat case_match; simplify_eq/=; first [done | congruence]. }
  assert (∀ uid email, (validateOnSignIn e uid email w).2 = w) as HsignIn.
  { intros uid email. rewrite validateOnSignIn_eval. by repeat case_match. }
  split_and!; [done|done|..].
  - intros n email. by apply invoke_times_read_only.
  - intros n uid email. by apply invoke_times_read_only.
  - intros email j. unfold checkInviteOnCreate, bind, query_get, ret, throw.
    repeat case_match; simplify_eq/=; first [done | congruence].
  - intros uid email j. rewrite !validateOnSignIn_eval. by repeat case_match.
Qed.

(** C10: the outcome of [validateOnSignIn] does not depend on which
    email the event carries, as long as it carries one. *)
Theorem validateOnSignIn_email_irrelevant
    (e : env) (w : world) (uid : option string) (email1 email2 : string) :
  email1 ≠ "" → email2 ≠ "" →
  validateOnSignIn e uid (Some email1) w = validateOnSignIn e uid (Some email2) w.
Proof.
  intros H1 H2. unfold validateOnSignIn. by rewrite !present_Some.
Qed.

(** C10 for uid2 signing in under two different emails. *)
Lemma validateOnSignIn_email_irrelevant_witness :
  validateOnSignIn today (Some "uid2") (Some "c@x.com") world1
  = validateOnSignIn today (Some "uid2") (Some "someone@else.org") world1.
Proof.
  apply (validateOnSignIn_email_irrelevant today world1 (Some "uid2")
           "c@x.com" "someone@else.org"); discriminate.
Defined.

(** * Materialisation *)

Lemma coll_insert_eq (st : db) c (m : collection) : coll (<[c := m]> st) c = m.
Proof. unfold coll. by rewrite lookup_insert_eq. Qed.

Lemma coll_insert_ne (st : db) c c' (m : collection) :
  c ≠ c' → coll (<[c := m]> st) c' = coll st c'.
Proof. intros. unfold coll. by rewrite lookup_insert_ne. Qed.

(** The batch of [onUserCreated] against a store that holds the invite:
    with the organisation present and no fault all three writes land;
    otherwise staging fails. *)
Lemma stage_materialisation f now email u inviteId invite role org (st : db) :
  coll st "invites" !! inviteId = Some invite →
  stage f now (materialisation_writes email u inviteId role org) st =
    match coll st "orgs" !! org with
    | Some od =>
        if fault_hits f 3 then inl Unavailable
        else inr (materialised now email u inviteId invite role org od st)
    | None => inl (if fault_hits f 2 then Unavailable else NotFound)
    end.
Proof.
  intros Hinv. unfold materialisation_writes, materialised.
  destruct f as [[|[|[|[|k]]]]|]; simpl; try done;
    rewrite ?coll_insert_ne, ?coll_insert_eq, ?Hinv by done; simpl;
    try (by destruct (coll st "orgs" !! org));
    rewrite ?coll_insert_ne, ?coll_insert_eq by done;
    destruct (coll st "orgs" !! org) as [od|]; try done;
    unfold write_fields, member_count; simpl;
    by destruct (od !! "memberCount") as [[]|].
Qed.

(** An invite either names a role and a non-empty organisation id, or
    lacks one of them. *)
Lemma invite_fields_cases (invite : doc) :
  (∃ role org, invite !! "role" = Some role ∧ invite !! "orgId" = Some (VStr org) ∧ org ≠ "") ∨
  (invite !! "role" = None ∨ invite !! "orgId" = None ∨
   ∀ org, invite !! "orgId" = Some (VStr org) → String.eqb org "" = true).
Proof.
  destruct (invite !! "role") as [r|]; [|by right; left].
  destruct (invite !! "orgId") as [[| | |o|]|]; try (right; right; right; by intros).
  destruct (String.eqb_spec o "") as [->|Hne].
  - right; right; right. by intros ? [= <-].
  - left. by exists r, o.
Qed.

Section trigger.
Variables (e : env) (u : UserRecord) (w : world).

(** On the path that reaches [batch.commit()], the batch holds exactly
    the three writes. *)
Lemma onUserCreated_batch mail inviteId invite l role org :
  present (email u) = Some mail →
  uid u ≠ "" →
  coll (store w) "users" !! uid u = None →
  run_query (pendingInviteQuery mail) (store w) = (inviteId, invite) :: l →
  invite !! "role" = Some role →
  invite !! "orgId" = Some (VStr org) →
  org ≠ "" →
  onUserCreated e u w =
    batch_commit e (materialisation_writes mail u inviteId role org) w.
Proof.
  intros Hem Hu Hfresh Hq Hrole Horg Hne. unfold onUserCreated. rewrite Hem.
  unfold bind, doc_ref, doc_get, query_get, batch_set, batch_update, ret, throw, str.
  rewrite (proj2 (String.eqb_neq (uid u) "")) by done. simpl.
  rewrite Hfresh, Hq. unfold user_fields. rewrite Hrole, Horg. simpl.
  by rewrite (proj2 (String.eqb_neq org "")) by done.
Qed.

Lemma batch_commit_materialisation mail inviteId invite role org :
  coll (store w) "invites" !! inviteId = Some invite →
  batch_commit e (materialisation_writes mail u inviteId role org) w =
    match coll (store w) "orgs" !! org with
    | Some od =>
        if fault_hits (fault e) 3 then (Throw Unavailable, w)
        else (Ok tt,
              World (materialised (clock e) mail u inviteId invite role org od (store w))
                    (journal w ++ materialisation_writes mail u inviteId role org))
    | None => (Throw (if fault_hits (fault e) 2 then Unavailable else NotFound), w)
    end.
Proof.
  intros Hinv. unfold batch_commit.
  rewrite (stage_materialisation _ _ _ _ _ invite) by done.
  destruct (coll (store w) "orgs" !! org); [|done].
  by destruct (fault_hits (fault e) 3).
Qed.

(** The first pending invite of the query is a stored invite that is
    pending for this email. *)
Lemma pendingInviteQuery_head mail inviteId invite l :
  run_query (pendingInviteQuery mail) (store w) = (inviteId, invite) :: l →
  coll (store w) "invites" !! inviteId = Some invite ∧ pending_for mail invite = true.
Proof.
  intros Hq%run_query_head. apply elem_of_candidates in Hq as [Hl Hm].
  by rewrite pendingInviteQuery_matches in Hm.
Qed.

Lemma onUserCreated_commit mail inviteId invite role org od :
  materialisable u w mail inviteId invite role org od →
  onUserCreated e u w =
    if fault_hits (fault e) 3 then (Throw Unavailable, w)
    else (Ok tt, committed e u w mail inviteId invite role org od).
Proof.
  intros (Hem & Hu & Hfresh & [l Hq] & Hr & Ho & Hne & Hod).
  destruct (pendingInviteQuery_head _ _ _ _ Hq) as [Hinv _].
  rewrite (onUserCreated_batch mail inviteId invite l role org) by done.
  rewrite (batch_commit_materialisation _ _ invite) by done.
  by rewrite Hod.
Qed.

(** Every run of [onUserCreated] either leaves the world as it was or
    commits the whole batch. *)
Lemma onUserCreated_cases :
  (onUserCreated e u w).2 = w ∨
  ∃ mail inviteId invite role org od,
    materialisable u w mail inviteId invite role org od ∧
    fault_hits (fault e) 3 = false ∧
    onUserCreated e u w = (Ok tt, committed e u w mail inviteId invite role org od).
Proof.
  destruct (present (email u)) as [em|] eqn:Hem;
    [|left; unfold onUserCreated; by rewrite Hem].
  destruct (String.eqb_spec (uid u) "") as [Hu|Hu].
  { left. unfold onUserCreated, bind, doc_ref, str. by rewrite Hem, Hu. }
  destruct (coll (store w) "users" !! uid u) as [d|] eqn:Hfresh.
  { left. unfold onUserCreated, bind, doc_ref, doc_get, str.
    rewrite Hem, (proj2 (String.eqb_neq (uid u) "")) by done. simpl.
    by rewrite Hfresh. }
  destruct (run_query (pendingInviteQuery em) (store w)) as [|[iid inv] l] eqn:Hq.
  { left. unfold onUserCreated, bind, doc_ref, doc_get, query_get, str.
    rewrite Hem, (proj2 (String.eqb_neq (uid u) "")) by done. simpl.
    by rewrite Hfresh, Hq. }
  destruct (pendingInviteQuery_head _ _ _ _ Hq) as [Hinv Hpend].
  destruct (invite_fields_cases inv) as [(r & o & Hr & Ho & Hne)|Hbad].
  - destruct (coll (store w) "orgs" !! o) as [od|] eqn:Hod.
    + assert (materialisable u w em iid inv r o od) as Hm
        by (unfold materialisable; eauto 10).
      rewrite (onUserCreated_commit _ _ _ _ _ _ Hm).
      destruct (fault_hits (fault e) 3) eqn:Hf; [by left|].
      right. by exists em, iid, inv, r, o, od.
    + left. rewrite (onUserCreated_batch em iid inv l r o) by done.
      rewrite (batch_commit_materialisation _ _ inv) by done.
      by rewrite Hod.
  - left. unfold onUserCreated, bind, doc_ref, doc_get, query_get,
      batch_set, batch_update, ret, throw, str.
    rewrite Hem, (proj2 (String.eqb_neq (uid u) "")) by done. simpl.
    rewrite Hfresh, Hq. unfold user_fields.
    destruct Hbad as [Hr|[Ho|Ho]].
    + rewrite Hr. simpl. by destruct (inv !! "orgId").
    + rewrite Ho. simpl. by destruct (inv !! "role").
    + destruct (inv !! "role"), (inv !! "orgId") as [[]|]; simpl; try done.
      by rewrite Ho.
Qed.

End trigger.

Lemma materialised_users now mail u inviteId invite role org od st :
  coll (materialised now mail u inviteId invite role org od st) "users"
  = <[uid u := user_doc now mail u role (VStr org)]> (coll st "users").
Proof. unfold materialised. rewrite !coll_insert_ne by done. apply coll_insert_eq. Qed.

Lemma materialised_invites now mail u inviteId invite role org od st :
  coll (materialised now mail u inviteId invite role org od st) "invites"
  = <[inviteId := <["status" := VStr "accepted"]> invite]> (coll st "invites").
Proof. unfold materialised. rewrite coll_insert_ne by done. apply coll_insert_eq. Qed.

Lemma materialised_orgs now mail u inviteId invite role org od st :
  coll (materialised now mail u inviteId invite role org od st) "orgs"
  = <[org := <["memberCount" := VNum (member_count od + 1)]> od]> (coll st "orgs").
Proof. unfold materialised. by rewrite coll_insert_eq. Qed.

Lemma member_count_incremented (od : doc) :
  member_count (<["memberCount" := VNum (member_count od + 1)]> od)
  = (member_count od + 1)%Z.
Proof. unfold member_count at 1. by rewrite lookup_insert_eq. Qed.

(** A committed world differs from the world before. *)
Lemma committed_neq e u w mail inviteId invite role org od :
  committed e u w mail inviteId invite role org od ≠ w.
Proof.
  intros Heq. apply (f_equal journal) in Heq. simpl in Heq.
  apply (f_equal length) in Heq. rewrite length_app in Heq. simpl in Heq. lia.
Qed.

(** Once the batch is committed the identity has its user record. *)
Lemma committed_has_user e u w mail inviteId invite role org od :
  coll (store (committed e u w mail inviteId invite role org od)) "users" !! uid u
  = Some (user_doc (clock e) mail u role (VStr org)).
Proof. simpl. by rewrite materialised_users, lookup_insert_eq. Qed.

(** * Invites selected by the two queries *)

Section selection.
Variables (st : db) (mail : string).

(** The only pending invite of an email is the one [onUserCreated] finds. *)
Lemma pendingInviteQuery_unique inviteId invite :
  coll st "invites" !! inviteId = Some invite →
  pending_for mail invite = true →
  map_Forall (λ id d, pending_for mail d = true → id = inviteId) (coll st "invites") →
  run_query (pendingInviteQuery mail) st = [(inviteId, invite)].
Proof.
  intros Hl Hp Huniq. apply run_query_unique; [done| | |done].
  - by rewrite pendingInviteQuery_matches.
  - intros id d Hd. rewrite pendingInviteQuery_matches. by apply Huniq.
Qed.

(** If it has not expired, it is also the one [checkInviteOnCreate] finds. *)
Lemma validInviteQuery_unique now inviteId invite :
  coll st "invites" !! inviteId = Some invite →
  pending_for mail invite = true →
  unexpired now invite = true →
  map_Forall (λ id d, pending_for mail d = true → id = inviteId) (coll st "invites") →
  run_query (validInviteQuery mail now) st = [(inviteId, invite)].
Proof.
  intros Hl Hp Hu Huniq. apply run_query_unique; [done| | |done].
  - by rewrite validInviteQuery_matches, Hp, Hu.
  - intros id d Hd. rewrite validInviteQuery_matches.
    intros [??]%andb_true_iff. by eapply Huniq.
Qed.

End selection.

(** * The claims about materialisation *)

(** C3: with exactly one pending invite for the email, unexpired and
    naming role [role] and organisation [org], and no super-role record,
    [checkInviteOnCreate] approves with the member claims of that
    invite; [onUserCreated] for a new identity with that email then
    creates the user record with that role and organisation, the email,
    display name and photo (or the empty string) and the two timestamps,
    marks the invite accepted and adds one to the organisation's member
    count, leaving every other document as it was. *)
Theorem invite_approved_then_materialised
    (e1 e2 : env) (w : world) (u : UserRecord) (mail inviteId : string)
    (invite od : doc) (role : value) (org : string) :
  email u = Some mail → mail ≠ "" → uid u ≠ "" →
  map_Forall (λ _ d, is_super_admin mail d = false) (coll (store w) "users") →
  coll (store w) "users" !! uid u = None →
  coll (store w) "invites" !! inviteId = Some invite →
  pending_for mail invite = true →
  unexpired (clock e1) invite = true →
  map_Forall (λ id d, pending_for mail d = true → id = inviteId)
             (coll (store w) "invites") →
  invite !! "role" = Some role →
  invite !! "orgId" = Some (VStr org) →
  org ≠ "" →
  coll (store w) "orgs" !! org = Some od →
  fault e2 = None →
  checkInviteOnCreate e1 (Some mail) w
    = (Ok (Some (MemberClaims (Some role) (Some (VStr org)))), w) ∧
  ∃ w', onUserCreated e2 u w = (Ok tt, w') ∧
    store w' = materialised (clock e2) mail u inviteId invite role org od (store w) ∧
    journal w' = journal w ++ materialisation_writes mail u inviteId role org ∧
    coll (store w') "users" !! uid u
      = Some (user_doc (clock e2) mail u role (VStr org)) ∧
    coll (store w') "invites" !! inviteId
      = Some (<["status" := VStr "accepted"]> invite) ∧
    member_count <$> coll (store w') "orgs" !! org = Some (member_count od + 1)%Z.
Proof.
  intros Hem Hne Hu Hsuper Hfresh Hinv Hpend Hunexp Huniq Hrole Horg Horgne Hod Hf.
  split.
  - rewrite checkInviteOnCreate_invite by auto using no_super_admin.
    rewrite (validInviteQuery_unique _ _ _ inviteId invite) by done.
    by rewrite Hrole, Horg.
  - assert (materialisable u w mail inviteId invite role org od) as Hm.
    { unfold materialisable. rewrite Hem, present_Some by done.
      split_and!; try done. exists [].
      by apply pendingInviteQuery_unique. }
    rewrite (onUserCreated_commit e2 _ _ _ _ _ _ _ _ Hm), Hf. simpl.
    eexists. split; [done|]. simpl. split_and!; try done.
    + by rewrite materialised_users, lookup_insert_eq.
    + by rewrite materialised_invites, lookup_insert_eq.
    + rewrite materialised_orgs, lookup_insert_eq. simpl.
      by rewrite member_count_incremented.
Qed.

(** C3 on the scenario of the spec: a@x.com is invited as admin of org1,
    which has two members. *)
Lemma invite_approved_then_materialised_witness :
  checkInviteOnCreate today (Some "a@x.com") world1
    = (Ok (Some (MemberClaims (str "admin") (str "org1"))), world1) ∧
  ∃ w', onUserCreated today user1 world1 = (Ok tt, w') ∧
    coll (store w') "users" !! "uid1"
      = Some (user_doc 10 "a@x.com" user1 (VStr "admin") (VStr "org1")) ∧
    coll (store w') "invites" !! "inviteA"
      = Some (<["status" := VStr "accepted"]>
                (invite_doc "a@x.com" "admin" "org1" "pending" 4 11)) ∧
    member_count <$> coll (store w') "orgs" !! "org1" = Some 3%Z.
Proof.
  destruct (invite_approved_then_materialised today today world1 user1 "a@x.com" "inviteA"
              (invite_doc "a@x.com" "admin" "org1" "pending" 4 11)
              {[ "name" := VStr "Org One"; "memberCount" := VNum 2 ]}
              (VStr "admin") "org1")
    as [Hbefore (w' & Hafter & _ & _ & Huser & Hinvite & Hcount)].
  - by_computation.
  - discriminate.
  - discriminate.
  - decide_by_computation.
  - by_computation.
  - by_computation.
  - by_computation.
  - by_computation.
  - decide_by_computation.
  - by_computation.
  - by_computation.
  - discriminate.
  - by_computation.
  - by_computation.
  - split; [exact Hbefore|]. exists w'. split; [exact Hafter|].
    split; [exact Huser|]. split; [exact Hinvite|exact Hcount].
Defined.

(** C7: [onUserCreated] queries invites by email and pending status
    only; a new identity whose only pending invite has already expired
    is materialised all the same. *)
Theorem onUserCreated_ignores_expiry
    (e : env) (w : world) (u : UserRecord) (mail inviteId : string)
    (invite od : doc) (role : value) (org : string) (t : Z) :
  email u = Some mail → mail ≠ "" → uid u ≠ "" →
  coll (store w) "users" !! uid u = None →
  coll (store w) "invites" !! inviteId = Some invite →
  pending_for mail invite = true →
  invite !! "expiresAt" = Some (VTime t) → (t ≤ clock e)%Z →
  map_Forall (λ id d, pending_for mail d = true → id = inviteId)
             (coll (store w) "invites") →
  invite !! "role" = Some role →
  invite !! "orgId" = Some (VStr org) →
  org ≠ "" →
  coll (store w) "orgs" !! org = Some od →
  fault e = None →
  (∀ d, matches_all (q_where (pendingInviteQuery mail)) d = pending_for mail d) ∧
  unexpired (clock e) invite = false ∧
  ∃ w', onUserCreated e u w = (Ok tt, w') ∧
    store w' = materialised (clock e) mail u inviteId invite role org od (store w) ∧
    journal w' = journal w ++ materialisation_writes mail u inviteId role org ∧
    coll (store w') "users" !! uid u
      = Some (user_doc (clock e) mail u role (VStr org)) ∧
    coll (store w') "invites" !! inviteId
      = Some (<["status" := VStr "accepted"]> invite) ∧
    member_count <$> coll (store w') "orgs" !! org = Some (member_count od + 1)%Z.
Proof.
  intros Hem Hne Hu Hfresh Hinv Hpend Hexp Ht Huniq Hrole Horg Horgne Hod Hf.
  split; [apply pendingInviteQuery_matches|]. split.
  { unfold unexpired. rewrite Hexp. apply bool_decide_eq_false. lia. }
  assert (materialisable u w mail inviteId invite role org od) as Hm.
  { unfold materialisable. rewrite Hem, present_Some by done.
    split_and!; try done. exists [].
    by apply pendingInviteQuery_unique. }
  rewrite (onUserCreated_commit e _ _ _ _ _ _ _ _ Hm), Hf. simpl.
  eexists. split; [done|]. simpl. split_and!; try done.
  - by rewrite materialised_users, lookup_insert_eq.
  - by rewrite materialised_invites, lookup_insert_eq.
  - rewrite materialised_orgs, lookup_insert_eq. simpl.
    by rewrite member_count_incremented.
Qed.

(** C7 on day 10 for b@x.com, whose invite expired on day 9. *)
Lemma onUserCreated_ignores_expiry_witness :
  unexpired (clock today) (invite_doc "b@x.com" "admin" "org1" "pending" 2 9) = false ∧
  ∃ w', onUserCreated today user3 world1 = (Ok tt, w') ∧
    coll (store w') "users" !! "uid3"
      = Some (user_doc 10 "b@x.com" user3 (VStr "admin") (VStr "org1")) ∧
    coll (store w') "invites" !! "inviteB"
      = Some (<["status" := VStr "accepted"]>
                (invite_doc "b@x.com" "admin" "org1" "pending" 2 9)) ∧
    member_count <$> coll (store w') "orgs" !! "org1" = Some 3%Z.
Proof.
  destruct (onUserCreated_ignores_expiry today world1 user3 "b@x.com" "inviteB"
              (invite_doc "b@x.com" "admin" "org1" "pending" 2 9)
              {[ "name" := VStr "Org One"; "memberCount" := VNum 2 ]}
              (VStr "admin") "org1" 9)
    as (_ & Hexpired & w' & Hrun & _ & _ & Huser & Hinvite & Hcount).
  - by_computation.
  - discriminate.
  - discriminate.
  - by_computation.
  - by_computation.
  - by_computation.
  - by_computation.
  - vm_compute. discriminate.
  - decide_by_computation.
  - by_computation.
  - by_computation.
  - discriminate.
  - by_computation.
  - by_computation.
  - split; [exact Hexpired|]. exists w'. split; [exact Hrun|].
    split; [exact Huser|]. split; [exact Hinvite|exact Hcount].
Defined.

(** C6: the user record, the acceptance of the invite and the increment
    of the member count reach the store together or not at all, whatever
    fault the backend has during the commit: after [onUserCreated] the
    world is either the one before, or the one with all three writes. *)
Theorem onUserCreated_atomic (e : env) (u : UserRecord) (w : world) :
  let w' := (onUserCreated e u w).2 in
  (fault_hits (fault e) 3 = true → w' = w) ∧
  (w' = w ∨
   ∃ mail inviteId invite role org od,
     coll (store w) "users" !! uid u = None ∧
     coll (store w) "invites" !! inviteId = Some invite ∧
     coll (store w) "orgs" !! org = Some od ∧
     store w' = materialised (clock e) mail u inviteId invite role org od (store w) ∧
     journal w' = journal w ++ materialisation_writes mail u inviteId role org ∧
     coll (store w') "users" !! uid u
       = Some (user_doc (clock e) mail u role (VStr org)) ∧
     coll (store w') "invites" !! inviteId
       = Some (<["status" := VStr "accepted"]> invite) ∧
     coll (store w') "orgs" !! org
       = Some (<["memberCount" := VNum (member_count od + 1)]> od)).
Proof.
  simpl. destruct (onUserCreated_cases e u w)
    as [Hsame|(mail & iid & inv & r & o & od & Hm & Hf & Hrun)].
  { split; [done|by left]. }
  split; [congruence|]. right. exists mail, iid, inv, r, o, od.
  rewrite Hrun. simpl.
  destruct Hm as (_ & _ & Hfresh & [l Hq] & _ & _ & _ & Hod).
  destruct (pendingInviteQuery_head _ _ _ _ _ Hq) as [Hinv _].
  split_and!; try done.
  - by rewrite materialised_users, lookup_insert_eq.
  - by rewrite materialised_invites, lookup_insert_eq.
  - by rewrite materialised_orgs, lookup_insert_eq.
Qed.

(** C6 with a failure of the backend after the user record is staged
    and before the member count is incremented: nothing is written. *)
Lemma onUserCreated_atomic_witness :
  let failing := {| clock := 10; fault := Some 1%nat |} in
  onUserCreated failing user1 world1 = (Throw Unavailable, world1).
Proof.
  pose proof (onUserCreated_atomic {| clock := 10; fault := Some 1%nat |} user1 world1) as H.
  cbv zeta in *. destruct H as [Hfault _].
  apply injective_projections; [by_computation|].
  apply Hfault. by_computation.
Defined.

Lemma onUserCreated_existing_ok (e : env) (u : UserRecord) (w : world) mail :
  present (email u) = Some mail → uid u ≠ "" →
  is_Some (coll (store w) "users" !! uid u) →
  onUserCreated e u w = (Ok tt, w).
Proof.
  intros Hem Hu [d Hd]. unfold onUserCreated, bind, doc_ref, doc_get, str.
  rewrite Hem, (proj2 (String.eqb_neq (uid u) "")) by done. simpl.
  by rewrite Hd.
Qed.

(** C5: [onUserCreated] run twice in succession materialises at most
    once.  The second run changes neither the store nor the journal of
    writes; when the first run committed, the second sees the user
    record and returns at once; and where there is something to
    materialise, the two runs leave exactly one user record for the
    identity, the invite accepted and the member count one higher. *)
Theorem onUserCreated_idempotent (e1 e2 : env) (u : UserRecord) (w : world) :
  let w1 := (onUserCreated e1 u w).2 in
  let r2 := onUserCreated e2 u w1 in
  (fault e1 = None → r2.2 = w1) ∧
  (w1 ≠ w → r2 = (Ok tt, w1)) ∧
  (∀ mail inviteId invite role org od,
     materialisable u w mail inviteId invite role org od →
     fault e1 = None →
     r2 = (Ok tt, committed e1 u w mail inviteId invite role org od) ∧
     journal r2.2 = journal w ++ materialisation_writes mail u inviteId role org ∧
     coll (store r2.2) "users" !! uid u
       = Some (user_doc (clock e1) mail u role (VStr org)) ∧
     coll (store r2.2) "invites" !! inviteId
       = Some (<["status" := VStr "accepted"]> invite) ∧
     member_count <$> coll (store r2.2) "orgs" !! org = Some (member_count od + 1)%Z).
Proof.
  simpl.
  assert (∀ mail iid inv r o od,
    materialisable u w mail iid inv r o od →
    onUserCreated e2 u (committed e1 u w mail iid inv r o od)
    = (Ok tt, committed e1 u w mail iid inv r o od)) as Hsecond.
  { intros mail iid inv r o od (Hem & Hu & _).
    apply (onUserCreated_existing_ok _ _ _ mail); [done..|].
    rewrite committed_has_user. by eexists. }
  split_and!.
  - intros Hf.
    destruct (onUserCreated_cases e1 u w)
      as [Hsame|(mail & iid & inv & r & o & od & Hm & _ & Hrun)].
    + rewrite Hsame.
      destruct (onUserCreated_cases e2 u w)
        as [?|(mail & iid & inv & r & o & od & Hm & _ & _)]; [done|].
      rewrite (onUserCreated_commit e1 _ _ _ _ _ _ _ _ Hm), Hf in Hsame.
      by apply committed_neq in Hsame.
    + rewrite Hrun. simpl. by rewrite Hsecond.
  - intros Hchanged.
    destruct (onUserCreated_cases e1 u w)
      as [?|(mail & iid & inv & r & o & od & Hm & _ & Hrun)]; [done|].
    rewrite Hrun. simpl. by apply Hsecond.
  - intros mail iid inv r o od Hm Hf.
    rewrite (onUserCreated_commit e1 _ _ _ _ _ _ _ _ Hm), Hf. simpl.
    rewrite Hsecond by done. simpl. split_and!; try done.
    + by rewrite materialised_users, lookup_insert_eq.
    + by rewrite materialised_invites, lookup_insert_eq.
    + rewrite materialised_orgs, lookup_insert_eq. simpl.
      by rewrite member_count_incremented.
Qed.

(** C5 on the scenario of the spec: the trigger fires twice for uid1. *)
Lemma onUserCreated_idempotent_witness :
  let w1 := (onUserCreated today user1 world1).2 in
  let r2 := onUserCreated today user1 w1 in
  r2.2 = w1 ∧
  r2.1 = Ok tt ∧
  journal r2.2 = materialisation_writes "a@x.com" user1 "inviteA" (VStr "admin") "org1" ∧
  member_count <$> coll (store r2.2) "orgs" !! "org1" = Some 3%Z.
Proof.
  pose proof (onUserCreated_idempotent today today user1 world1) as H.
  cbv zeta in *. destruct H as (Hnoop & _ & Hscenario).
  destruct (Hscenario "a@x.com" "inviteA"
              (invite_doc "a@x.com" "admin" "org1" "pending" 4 11)
              (VStr "admin") "org1"
              {[ "name" := VStr "Org One"; "memberCount" := VNum 2 ]})
    as (Hsecond & Hjournal & _ & _ & Hcount).
  - unfold materialisable. split; [by_computation|].
    split; [discriminate|]. split; [by_computation|].
    split; [exists []; by_computation|].
    split; [by_computation|]. split; [by_computation|].
    split; [discriminate|by_computation].
  - reflexivity.
  - split; [exact (Hnoop eq_refl)|]. split; [exact (f_equal fst Hsecond)|].
    split; [exact Hjournal|exact Hcount].
Defined.

(** * Several invites for one email *)

Lemma entry_le_expiry now id d id' d' :
  unexpired now d = true → unexpired now d' = true →
  entry_le (Some "expiresAt") (id, d) (id', d') →
  (expiry d < expiry d')%Z ∨ (expiry d = expiry d' ∧ String.le id id').
Proof.
  unfold unexpired, expiry, entry_le, key_lt, str_lt. simpl.
  destruct (d !! "expiresAt") as [[]|]; try done.
  destruct (d' !! "expiresAt") as [[]|]; try done. simpl.
  intros _ _ [[?|[_ [?|[_ [_ ?]]]]]|[[= ->] ?]]; try done; [by left..|by right].
Qed.

(** C8, as the code has it: with one or more pending unexpired invites
    for an email neither function fails on their number.
    [checkInviteOnCreate] approves with the role and organisation of the
    pending unexpired invite that expires first, the smaller document
    id deciding between equal expiry times; [onUserCreated] works on the
    pending invite, expired or not, with the smallest document id. *)
Theorem hooks_select_first_of_query (e : env) (w : world) (mail : string) :
  mail ≠ "" →
  map_Forall (λ _ d, is_super_admin mail d = false) (coll (store w) "users") →
  (∃ id d, coll (store w) "invites" !! id = Some d ∧
           pending_for mail d && unexpired (clock e) d = true) →
  (∃ id d,
     coll (store w) "invites" !! id = Some d ∧
     pending_for mail d && unexpired (clock e) d = true ∧
     map_Forall (λ id' d', pending_for mail d' && unexpired (clock e) d' = true →
                   (expiry d < expiry d')%Z ∨ (expiry d = expiry d' ∧ String.le id id'))
                (coll (store w) "invites") ∧
     checkInviteOnCreate e (Some mail) w
       = (Ok (Some (MemberClaims (d !! "role") (d !! "orgId"))), w)) ∧
  (∃ id d,
     coll (store w) "invites" !! id = Some d ∧
     pending_for mail d = true ∧
     map_Forall (λ id' d', pending_for mail d' = true → String.le id id')
                (coll (store w) "invites") ∧
     ∀ e2 u role org od,
       email u = Some mail → uid u ≠ "" →
       coll (store w) "users" !! uid u = None →
       d !! "role" = Some role → d !! "orgId" = Some (VStr org) → org ≠ "" →
       coll (store w) "orgs" !! org = Some od →
       fault e2 = None →
       onUserCreated e2 u w = (Ok tt, committed e2 u w mail id d role org od)).
Proof.
  intros Hne Hsuper (id0 & d0 & Hl0 & Hv0).
  pose proof Hv0 as [Hp0 Hu0]%andb_true_iff.
  split.
  - destruct (run_query_cons (validInviteQuery mail (clock e)) (store w) (id0, d0))
      as ([id d] & l & Hq); [|done|].
    { apply elem_of_candidates. by rewrite validInviteQuery_matches. }
    pose proof (run_query_head _ _ _ _ Hq) as [Hl Hv]%elem_of_candidates.
    rewrite validInviteQuery_matches in Hv.
    exists id, d. split_and!; [done..| |].
    + intros id' d' Hl' Hv'.
      pose proof Hv as [_ ?]%andb_true_iff. pose proof Hv' as [_ ?]%andb_true_iff.
      apply (entry_le_expiry (clock e)); [done..|].
      apply (run_query_head_least _ _ _ _ _ Hq).
      apply elem_of_candidates. by rewrite validInviteQuery_matches.
    + rewrite checkInviteOnCreate_invite by auto using no_super_admin.
      by rewrite Hq.
  - destruct (run_query_cons (pendingInviteQuery mail) (store w) (id0, d0))
      as ([id d] & l & Hq); [|done|].
    { apply elem_of_candidates. by rewrite pendingInviteQuery_matches. }
    destruct (pendingInviteQuery_head _ _ _ _ _ Hq) as [Hl Hp].
    exists id, d. split_and!; [done..| |].
    + intros id' d' Hl' Hp'.
      apply (run_query_head_least _ _ _ _ (id', d') Hq).
      apply elem_of_candidates. by rewrite pendingInviteQuery_matches.
    + intros e2 u role org od Hem Hu Hfresh Hrole Horg Horgne Hod Hf.
      assert (materialisable u w mail id d role org od) as Hm.
      { unfold materialisable. rewrite Hem, present_Some by done.
        split_and!; try done. by exists l. }
      by rewrite (onUserCreated_commit e2 _ _ _ _ _ _ _ _ Hm), Hf.
Qed.

(** The amended C8 on three pending unexpired invites for a@x.com. *)
Lemma hooks_select_first_of_query_witness :
  ∃ id d,
    coll (store world3) "invites" !! id = Some d ∧
    checkInviteOnCreate today (Some "a@x.com") world3
      = (Ok (Some (MemberClaims (d !! "role") (d !! "orgId"))), world3).
Proof.
  destruct (hooks_select_first_of_query today world3 "a@x.com")
    as [(id & d & Hl & _ & _ & Hrun) _].
  - discriminate.
  - decide_by_computation.
  - exists "inv3", (invite_doc "a@x.com" "admin" "orgC" "pending" 1 40).
    split; by_computation.
  - exists id, d. split; [exact Hl|exact Hrun].
Defined.

(** C8 fails as stated: in [world4] the pending unexpired invite with
    the earliest [createdAt] is inv3 (admin of orgC), yet
    [checkInviteOnCreate] approves with the claims of inv1 (viewer of
    orgA), and [onUserCreated] accepts inv1 and writes a viewer of
    orgA. *)
Lemma earliest_created_not_selected :
  earliest_created (clock today) "a@x.com" (store world4) "inv3"
    (invite_doc "a@x.com" "admin" "orgC" "pending" 1 40) ∧
  checkInviteOnCreate today (Some "a@x.com") world4
    = (Ok (Some (MemberClaims (str "viewer") (str "orgA"))), world4) ∧
  checkInviteOnCreate today (Some "a@x.com") world4
    ≠ (Ok (Some (MemberClaims (str "admin") (str "orgC"))), world4) ∧
  journal (onUserCreated today user1 world4).2
    = materialisation_writes "a@x.com" user1 "inv1" (VStr "viewer") "orgA".
Proof.
  assert (checkInviteOnCreate today (Some "a@x.com") world4
    = (Ok (Some (MemberClaims (str "viewer") (str "orgA"))), world4)) as Hrun
    by by_computation.
  split; [|split; [exact Hrun|split]].
  - split; [by_computation|]. split; [by_computation|]. decide_by_computation.
  - rewrite Hrun. discriminate.
  - by_computation.
Qed.

(** Nor do the two functions always work on the same invite: in
    [world3] the sign-up is approved with the claims of inv2, which
    expires first, and the trigger then accepts inv1, which has the
    smallest id. *)
Lemma hooks_may_select_different_invites :
  checkInviteOnCreate today (Some "a@x.com") world3
    = (Ok (Some (MemberClaims (str "user") (str "orgB"))), world3) ∧
  journal (onUserCreated today user1 world3).2
    = materialisation_writes "a@x.com" user1 "inv1" (VStr "viewer") "orgA".
Proof. split; by_computation. Qed.

(** * Further properties of the three functions *)

(** X1: without an email [checkInviteOnCreate] throws the
    invalid-argument error, and so does [validateOnSignIn] when the uid
    or the email is missing or empty, with the same message in both
    cases; nothing is written. *)
Theorem blocking_functions_require_input (e : env) (w : world) :
  checkInviteOnCreate e None w
    = (Throw (HttpsError "invalid-argument" "Email is required."), w) ∧
  checkInviteOnCreate e (Some "") w
    = (Throw (HttpsError "invalid-argument" "Email is required."), w) ∧
  (∀ uid email, present uid = None ∨ present email = None →
     validateOnSignIn e uid email w
       = (Throw (HttpsError "invalid-argument" "Email is required."), w)).
Proof.
  split; [done|]. split; [done|].
  intros uid email Hmissing. rewrite validateOnSignIn_eval.
  destruct Hmissing as [-> | ->]; [done|]. by destruct (present uid).
Qed.

(** X2: [checkInviteOnCreate] approves only on evidence in the store:
    super-admin claims need a super-role user record with the email,
    member claims are the role and organisation of a stored invite
    that is pending for the email and unexpired; it never approves
    without claims. *)
Theorem checkInviteOnCreate_sound (e : env) (w : world) (email : option string) (c : response) :
  (checkInviteOnCreate e email w).1 = Ok c →
  ∃ mail, email = Some mail ∧ mail ≠ "" ∧
    ((c = Some SuperAdminClaims ∧
      ∃ id d, coll (store w) "users" !! id = Some d ∧ is_super_admin mail d = true) ∨
     (∃ id d, coll (store w) "invites" !! id = Some d ∧
        pending_for mail d && unexpired (clock e) d = true ∧
        c = Some (MemberClaims (d !! "role") (d !! "orgId")))).
Proof.
  unfold checkInviteOnCreate.
  destruct (present email) as [mail|] eqn:Hp; [|done].
  apply present_nonempty in Hp as [-> Hne].
  intros Hrun. exists mail. split; [done|]. split; [done|].
  unfold bind, query_get in Hrun. simpl in Hrun.
  destruct (run_query (superAdminQuery mail) (store w)) as [|[id d] l] eqn:Hs.
  - destruct (run_query (validInviteQuery mail (clock e)) (store w))
      as [|[id d] l] eqn:Hv; [done|].
    right. exists id, d.
    apply run_query_head, elem_of_candidates in Hv as [Hl Hm].
    rewrite validInviteQuery_matches in Hm.
    split; [done|]. split; [done|]. simpl in Hrun. congruence.
  - left. simpl in Hrun. split; [congruence|]. exists id, d.
    apply run_query_head, elem_of_candidates in Hs as [Hl Hm].
    by rewrite superAdminQuery_matches in Hm.
Qed.

Lemma checkInviteOnCreate_sound_witness :
  ∃ id d, coll (store world1) "invites" !! id = Some d ∧
    pending_for "a@x.com" d && unexpired (clock today) d = true ∧
    d !! "role" = str "admin" ∧ d !! "orgId" = str "org1".
Proof.
  destruct (checkInviteOnCreate_sound today world1 (Some "a@x.com")
              (Some (MemberClaims (str "admin") (str "org1"))))
    as (mail & Hmail & _ & [[Hsuper _]|(id & d & Hl & Hvalid & Hc)]).
  - by_computation.
  - discriminate Hsuper.
  - injection Hmail as <-.
    exists id, d. split; [exact Hl|]. split; [exact Hvalid|].
    injection Hc as Hr Ho. split; [symmetry; exact Hr|symmetry; exact Ho].
Defined.

(** X3: a user record whose role is superAdmin always signs in with the
    super-admin claims, whatever its organisation field holds. *)
Theorem validateOnSignIn_superAdmin
    (e : env) (w : world) (uid email : string) (d : doc) :
  uid ≠ "" → email ≠ "" →
  coll (store w) "users" !! uid = Some d →
  d !! "role" = str "superAdmin" →
  validateOnSignIn e (Some uid) (Some email) w = (Ok (Some SuperAdminClaims), w).
Proof.
  intros Hu He Hl Hrole. rewrite validateOnSignIn_lookup, Hl by done.
  simpl. by rewrite bool_decide_eq_true_2.
Qed.

Lemma validateOnSignIn_superAdmin_witness :
  validateOnSignIn today (Some "root") (Some "root@x.com") world1
  = (Ok (Some SuperAdminClaims), world1).
Proof.
  apply (validateOnSignIn_superAdmin today world1 "root" "root@x.com"
           {[ "email" := VStr "root@x.com"; "role" := VStr "superAdmin"; "orgId" := VNull ]}).
  - discriminate.
  - discriminate.
  - by_computation.
  - by_computation.
Defined.

(** X4: for a user record that is not of the super role,
    [validateOnSignIn] approves exactly when both role and organisation
    are non-empty, and then the claims are the record's role and
    organisation; otherwise it throws the deactivation error.  A record
    with a role but no organisation is refused as well. *)
Theorem validateOnSignIn_mirrors_record
    (e : env) (w : world) (uid email : string) (d : doc) :
  uid ≠ "" → email ≠ "" →
  coll (store w) "users" !! uid = Some d →
  d !! "role" ≠ str "superAdmin" →
  validateOnSignIn e (Some uid) (Some email) w =
    if truthy (d !! "role") && truthy (d !! "orgId")
    then (Ok (Some (MemberClaims (d !! "role") (d !! "orgId"))), w)
    else (Throw (HttpsError "permission-denied"
            "Your account has been deactivated. Contact an administrator."), w).
Proof.
  intros Hu He Hl Hrole. rewrite validateOnSignIn_lookup, Hl by done.
  simpl. rewrite bool_decide_eq_false_2 by done.
  by destruct (truthy (d !! "role") && truthy (d !! "orgId")).
Qed.

Lemma validateOnSignIn_mirrors_record_witness :
  validateOnSignIn today (Some "uid5") (Some "e@x.com") world5
    = (Ok (Some (MemberClaims (str "user") (str "org1"))), world5) ∧
  validateOnSignIn today (Some "uid6") (Some "f@x.com") world5
    = (Throw (HttpsError "permission-denied"
         "Your account has been deactivated. Contact an administrator."), world5).
Proof.
  split.
  - etrans.
    + apply (validateOnSignIn_mirrors_record today world5 "uid5" "e@x.com"
               {[ "email" := VStr "e@x.com"; "role" := VStr "user"; "orgId" := VStr "org1" ]});
        [discriminate|discriminate|by_computation|vm_compute; discriminate].
    + by_computation.
  - etrans.
    + apply (validateOnSignIn_mirrors_record today world5 "uid6" "f@x.com"
               {[ "email" := VStr "f@x.com"; "role" := VStr "admin" ]});
        [discriminate|discriminate|by_computation|vm_compute; discriminate].
    + by_computation.
Defined.

Lemma onUserCreated_nothing_pending (e : env) (u : UserRecord) (w : world) mail :
  present (email u) = Some mail → uid u ≠ "" →
  map_Forall (λ _ d, pending_for mail d = false) (coll (store w) "invites") →
  onUserCreated e u w = (Ok tt, w).
Proof.
  intros Hem Hu Hnone.
  unfold onUserCreated, bind, doc_ref, doc_get, query_get, str.
  rewrite Hem, (proj2 (String.eqb_neq (uid u) "")) by done. simpl.
  destruct (coll (store w) "users" !! uid u); [done|].
  rewrite run_query_nil; [done|].
  intros id d Hl. rewrite pendingInviteQuery_matches. by eapply Hnone.
Qed.

(** X5: [onUserCreated] returns without error and without writing when
    the user record carries no email, when the identity already has a
    user document, and when no invite is pending for the email. *)
Theorem onUserCreated_returns_early (e : env) (u : UserRecord) (w : world) :
  (present (email u) = None → onUserCreated e u w = (Ok tt, w)) ∧
  (∀ mail, present (email u) = Some mail → uid u ≠ "" →
     is_Some (coll (store w) "users" !! uid u) ∨
     map_Forall (λ _ d, pending_for mail d = false) (coll (store w) "invites") →
     onUserCreated e u w = (Ok tt, w)).
Proof.
  split.
  - intros Hem. unfold onUserCreated. by rewrite Hem.
  - intros mail Hem Hu [Hex|Hnone];
      [by eapply onUserCreated_existing_ok|by eapply onUserCreated_nothing_pending].
Qed.

Lemma onUserCreated_returns_early_witness :
  onUserCreated today {| uid := "uid8"; email := None; displayName := None; photoURL := None |}
    world1 = (Ok tt, world1) ∧
  onUserCreated today {| uid := "uid2"; email := Some "a@x.com"; displayName := None;
                         photoURL := None |} world1 = (Ok tt, world1) ∧
  onUserCreated today {| uid := "uid8"; email := Some "nobody@x.com"; displayName := None;
                         photoURL := None |} world1 = (Ok tt, world1).
Proof.
  split; [|split].
  - apply (onUserCreated_returns_early today
             {| uid := "uid8"; email := None; displayName := None; photoURL := None |} world1).
    reflexivity.
  - apply (onUserCreated_returns_early today
             {| uid := "uid2"; email := Some "a@x.com"; displayName := None;
                photoURL := None |} world1) with (mail := "a@x.com").
    + reflexivity.
    + discriminate.
    + left. eexists. by_computation.
  - apply (onUserCreated_returns_early today
             {| uid := "uid8"; email := Some "nobody@x.com"; displayName := None;
                photoURL := None |} world1) with (mail := "nobody@x.com").
    + reflexivity.
    + discriminate.
    + right. decide_by_computation.
Defined.

(** X6: when the organisation named by the invite has no document, the
    commit fails on the increment and nothing at all is written: the
    identity is left without a user record and the invite stays
    pending, so the next sign-in is approved with no claims. *)
Theorem onUserCreated_missing_organisation
    (e e' : env) (w : world) (u : UserRecord) (mail inviteId : string)
    (invite : doc) (role : value) (org : string) :
  email u = Some mail → mail ≠ "" → uid u ≠ "" →
  coll (store w) "users" !! uid u = None →
  coll (store w) "invites" !! inviteId = Some invite →
  pending_for mail invite = true →
  map_Forall (λ id d, pending_for mail d = true → id = inviteId)
             (coll (store w) "invites") →
  invite !! "role" = Some role →
  invite !! "orgId" = Some (VStr org) →
  org ≠ "" →
  coll (store w) "orgs" !! org = None →
  fault e = None →
  onUserCreated e u w = (Throw NotFound, w) ∧
  validateOnSignIn e' (Some (uid u)) (Some mail) w = (Ok None, w).
Proof.
  intros Hem Hne Hu Hfresh Hinv Hpend Huniq Hrole Horg Horgne Hod Hf. split.
  - rewrite (onUserCreated_batch e u w mail inviteId invite [] role org);
      [|by rewrite Hem, present_Some|done|done|by apply pendingInviteQuery_unique|done..].
    rewrite (batch_commit_materialisation _ _ _ _ _ invite) by done.
    by rewrite Hod, Hf.
  - by rewrite validateOnSignIn_lookup, Hfresh.
Qed.

Lemma onUserCreated_missing_organisation_witness :
  onUserCreated today user1 world_orphan = (Throw NotFound, world_orphan) ∧
  validateOnSignIn today (Some "uid1") (Some "a@x.com") world_orphan
    = (Ok None, world_orphan).
Proof.
  apply (onUserCreated_missing_organisation today today world_orphan user1 "a@x.com"
           "inviteA" (invite_doc "a@x.com" "admin" "org1" "pending" 4 11)
           (VStr "admin") "org1").
  - reflexivity.
  - discriminate.
  - discriminate.
  - by_computation.
  - by_computation.
  - by_computation.
  - decide_by_computation.
  - by_computation.
  - by_computation.
  - discriminate.
  - by_computation.
  - reflexivity.
Defined.

(** X7: whatever it is given, [onUserCreated] deletes nothing and
    leaves every existing user record as it is; only the record of its
    own identity can appear.  An invite changes at most from pending to
    accepted, an organisation at most by one more member, and no other
    collection is touched. *)
Theorem onUserCreated_preserves_documents (e : env) (u : UserRecord) (w : world) :
  let st := store w in
  let st' := store (onUserCreated e u w).2 in
  (∀ id d, coll st "users" !! id = Some d → coll st' "users" !! id = Some d) ∧
  (∀ id, id ≠ uid u → coll st' "users" !! id = coll st "users" !! id) ∧
  (∀ id, coll st' "invites" !! id = coll st "invites" !! id ∨
         ∃ d, coll st "invites" !! id = Some d ∧ d !! "status" = str "pending" ∧
              coll st' "invites" !! id = Some (<["status" := VStr "accepted"]> d)) ∧
  (∀ id, coll st' "orgs" !! id = coll st "orgs" !! id ∨
         ∃ d, coll st "orgs" !! id = Some d ∧
              coll st' "orgs" !! id
                = Some (<["memberCount" := VNum (member_count d + 1)]> d)) ∧
  (∀ c, c ≠ "users" → c ≠ "invites" → c ≠ "orgs" → coll st' c = coll st c).
Proof.
  simpl. destruct (onUserCreated_cases e u w)
    as [->|(mail & iid & inv & r & o & od & Hm & _ & ->)].
  { split_and!; auto. }
  destruct Hm as (_ & _ & Hfresh & [l Hq] & _ & _ & _ & Hod).
  destruct (pendingInviteQuery_head _ _ _ _ _ Hq) as [Hinv Hpend].
  simpl. rewrite materialised_users, materialised_invites, materialised_orgs.
  split_and!.
  - intros id d Hd. rewrite lookup_insert_ne; [done|].
    intros Heq. rewrite Heq in Hfresh. by rewrite Hfresh in Hd.
  - intros id Hid. by rewrite lookup_insert_ne.
  - intros id. destruct (decide (id = iid)) as [->|Hid].
    + right. exists inv. rewrite lookup_insert_eq. split_and!; [done| |done].
      unfold pending_for in Hpend. apply andb_true_iff in Hpend as [_ Hs].
      by apply bool_decide_eq_true in Hs.
    + left. by rewrite lookup_insert_ne.
  - intros id. destruct (decide (id = o)) as [->|Hid].
    + right. exists od. by rewrite lookup_insert_eq.
    + left. by rewrite lookup_insert_ne.
  - intros c ???. unfold materialised. by rewrite !coll_insert_ne.
Qed.

Lemma user_doc_orgId now mail u role orgId :
  user_doc now mail u role orgId !! "orgId" = Some orgId.
Proof. unfold user_doc. rewrite !lookup_insert_ne by done. apply lookup_insert_eq. Qed.

Lemma user_doc_role now mail u role orgId :
  user_doc now mail u role orgId !! "role" = Some role.
Proof. unfold user_doc. rewrite !lookup_insert_ne by done. apply lookup_insert_eq. Qed.

Lemma user_count_insert (org : string) (users : collection) (id : string) (d : doc) :
  users !! id = None →
  user_count org (<[id := d]> users)
  = if decide (d !! "orgId" = Some (VStr org)) then S (user_count org users)
    else user_count org users.
Proof.
  intros Hfresh. unfold user_count. case_decide as Horg.
  - rewrite map_filter_insert_True by done.
    apply map_size_insert_None, map_lookup_filter_None. by left.
  - rewrite map_filter_insert_not'; [done|done|]. intros y. by rewrite Hfresh.
Qed.

(** X8: [onUserCreated] keeps the member counts in step with the user
    records: if every organisation's [memberCount] is the number of
    user records bound to it, this still holds after any run. *)
Theorem onUserCreated_keeps_member_counts (e : env) (u : UserRecord) (w : world) :
  counts_consistent (store w) →
  counts_consistent (store (onUserCreated e u w).2).
Proof.
  intros Hcons. destruct (onUserCreated_cases e u w)
    as [->|(mail & iid & inv & r & o & od & Hm & _ & ->)]; [done|].
  destruct Hm as (_ & _ & Hfresh & _ & _ & _ & _ & Hod).
  unfold counts_consistent. simpl.
  rewrite materialised_users, materialised_orgs.
  intros org d. rewrite lookup_insert. case_decide as Horg.
  - intros [= <-]. subst org. rewrite member_count_incremented.
    rewrite user_count_insert by done. rewrite decide_True by apply user_doc_orgId.
    rewrite (Hcons _ _ Hod). lia.
  - intros Hd. rewrite user_count_insert by done.
    rewrite decide_False; [by apply Hcons|]. rewrite user_doc_orgId. congruence.
Qed.

Lemma onUserCreated_keeps_member_counts_witness :
  counts_consistent (store (onUserCreated today user7 world5).2) ∧
  member_count <$> coll (store (onUserCreated today user7 world5).2) "orgs" !! "org1"
    = Some 2%Z.
Proof.
  split.
  - apply (onUserCreated_keeps_member_counts today user7 world5).
    decide_by_computation.
  - by_computation.
Defined.

(** X9: the claims issued at creation and at sign-in agree.  When the
    only pending invite of an email is unexpired and names a non-empty
    role other than superAdmin, the member claims that
    [checkInviteOnCreate] approves are exactly the claims that
    [validateOnSignIn] returns once [onUserCreated] has written the
    user record. *)
Theorem claims_agree_after_materialisation
    (e1 e2 e3 : env) (w : world) (u : UserRecord) (mail mail' inviteId : string)
    (invite od : doc) (role : value) (org : string) :
  email u = Some mail → mail ≠ "" → mail' ≠ "" → uid u ≠ "" →
  map_Forall (λ _ d, is_super_admin mail d = false) (coll (store w) "users") →
  coll (store w) "users" !! uid u = None →
  coll (store w) "invites" !! inviteId = Some invite →
  pending_for mail invite = true →
  unexpired (clock e1) invite = true →
  map_Forall (λ id d, pending_for mail d = true → id = inviteId)
             (coll (store w) "invites") →
  invite !! "role" = Some role →
  truthy (Some role) = true →
  role ≠ VStr "superAdmin" →
  invite !! "orgId" = Some (VStr org) →
  org ≠ "" →
  coll (store w) "orgs" !! org = Some od →
  fault e2 = None →
  ∃ c w',
    checkInviteOnCreate e1 (Some mail) w = (Ok (Some c), w) ∧
    onUserCreated e2 u w = (Ok tt, w') ∧
    validateOnSignIn e3 (Some (uid u)) (Some mail') w' = (Ok (Some c), w').
Proof.
  intros Hem Hne Hne' Hu Hsuper Hfresh Hinv Hpend Hunexp Huniq Hrole Htruthy Hnotsuper
    Horg Horgne Hod Hf.
  assert (materialisable u w mail inviteId invite role org od) as Hm.
  { unfold materialisable. rewrite Hem, present_Some by done.
    split_and!; try done. exists []. by apply pendingInviteQuery_unique. }
  exists (MemberClaims (Some role) (Some (VStr org))),
         (committed e2 u w mail inviteId invite role org od).
  split_and!.
  - rewrite checkInviteOnCreate_invite by auto using no_super_admin.
    rewrite (validInviteQuery_unique _ _ _ inviteId invite) by done.
    by rewrite Hrole, Horg.
  - by rewrite (onUserCreated_commit e2 _ _ _ _ _ _ _ _ Hm), Hf.
  - rewrite validateOnSignIn_lookup, committed_has_user by done. simpl.
    rewrite user_doc_role, user_doc_orgId, Htruthy. simpl.
    rewrite (proj2 (String.eqb_neq org "")) by done. simpl.
    by rewrite bool_decide_eq_false_2 by (unfold str; congruence).
Qed.

Lemma claims_agree_after_materialisation_witness :
  ∃ c w',
    checkInviteOnCreate today (Some "a@x.com") world1 = (Ok (Some c), world1) ∧
    onUserCreated today user1 world1 = (Ok tt, w') ∧
    validateOnSignIn today (Some "uid1") (Some "a@x.com") w' = (Ok (Some c), w').
Proof.
  apply (claims_agree_after_materialisation today today today world1 user1
           "a@x.com" "a@x.com" "inviteA"
           (invite_doc "a@x.com" "admin" "org1" "pending" 4 11)
           {[ "name" := VStr "Org One"; "memberCount" := VNum 2 ]}
           (VStr "admin") "org1").
  - reflexivity.
  - discriminate.
  - discriminate.
  - discriminate.
  - decide_by_computation.
  - by_computation.
  - by_computation.
  - by_computation.
  - by_computation.
  - decide_by_computation.
  - by_computation.
  - reflexivity.
  - discriminate.
  - by_computation.
  - discriminate.
  - by_computation.
  - reflexivity.
Defined.

Lemma pending_for_accepted mail (invite : doc) :
  pending_for mail (<["status" := VStr "accepted"]> invite) = false.
Proof.
  unfold pending_for. rewrite lookup_insert_eq.
  rewrite (bool_decide_eq_false_2 (Some (VStr "accepted") = str "pending")) by done.
  apply andb_false_r.
Qed.

(** X10: an invite is used up by the materialisation it causes.  Once
    [onUserCreated] has committed on the only pending invite of an
    email, a further sign-up with that email is refused by
    [checkInviteOnCreate], and [onUserCreated] for any other identity
    with that email does nothing. *)
Theorem invite_is_single_use
    (e2 e3 : env) (w : world) (u u2 : UserRecord) (mail inviteId : string)
    (invite od : doc) (role : value) (org : string) :
  email u = Some mail → mail ≠ "" → uid u ≠ "" →
  email u2 = Some mail → uid u2 ≠ "" →
  map_Forall (λ _ d, is_super_admin mail d = false) (coll (store w) "users") →
  coll (store w) "users" !! uid u = None →
  coll (store w) "invites" !! inviteId = Some invite →
  pending_for mail invite = true →
  map_Forall (λ id d, pending_for mail d = true → id = inviteId)
             (coll (store w) "invites") →
  invite !! "role" = Some role →
  role ≠ VStr "superAdmin" →
  invite !! "orgId" = Some (VStr org) →
  org ≠ "" →
  coll (store w) "orgs" !! org = Some od →
  fault e2 = None →
  ∃ w', onUserCreated e2 u w = (Ok tt, w') ∧
    checkInviteOnCreate e3 (Some mail) w'
      = (Throw (HttpsError "permission-denied"
           "No valid invitation found for this email."), w') ∧
    onUserCreated e3 u2 w' = (Ok tt, w').
Proof.
  intros Hem Hne Hu Hem2 Hu2 Hsuper Hfresh Hinv Hpend Huniq Hrole Hnotsuper
    Horg Horgne Hod Hf.
  assert (materialisable u w mail inviteId invite role org od) as Hm.
  { unfold materialisable. rewrite Hem, present_Some by done.
    split_and!; try done. exists []. by apply pendingInviteQuery_unique. }
  exists (committed e2 u w mail inviteId invite role org od).
  assert (map_Forall (λ _ d, pending_for mail d = false)
            (coll (store (committed e2 u w mail inviteId invite role org od)) "invites"))
    as Hnone.
  { simpl. rewrite materialised_invites. intros id d.
    rewrite lookup_insert. case_decide as Hid.
    - intros [= <-]. apply pending_for_accepted.
    - intros Hd. destruct (pending_for mail d) eqn:Hp; [|done].
      destruct Hid. symmetry. by eapply Huniq. }
  split_and!.
  - by rewrite (onUserCreated_commit e2 _ _ _ _ _ _ _ _ Hm), Hf.
  - rewrite checkInviteOnCreate_invite; [|done|].
    + rewrite run_query_nil; [done|]. intros id d Hd.
      rewrite validInviteQuery_matches. simpl in Hd. by rewrite (Hnone id d Hd).
    + apply no_super_admin. simpl. rewrite materialised_users.
      apply map_Forall_insert_2; [|done].
      unfold is_super_admin. rewrite user_doc_role.
      rewrite (bool_decide_eq_false_2 (Some role = str "superAdmin"))
        by (unfold str; congruence).
      apply andb_false_r.
  - apply (onUserCreated_nothing_pending e3 u2 _ mail);
      [by rewrite Hem2, present_Some|done|done].
Qed.

Lemma invite_is_single_use_witness :
  ∃ w', onUserCreated today user1 world1 = (Ok tt, w') ∧
    checkInviteOnCreate today (Some "a@x.com") w'
      = (Throw (HttpsError "permission-denied"
           "No valid invitation found for this email."), w') ∧
    onUserCreated today
      {| uid := "uid9"; email := Some "a@x.com"; displayName := None; photoURL := None |} w'
      = (Ok tt, w').
Proof.
  apply (invite_is_single_use today today world1 user1
           {| uid := "uid9"; email := Some "a@x.com"; displayName := None; photoURL := None |}
           "a@x.com" "inviteA"
           (invite_doc "a@x.com" "admin" "org1" "pending" 4 11)
           {[ "name" := VStr "Org One"; "memberCount" := VNum 2 ]}
           (VStr "admin") "org1").
  - reflexivity.
  - discriminate.
  - discriminate.
  - reflexivity.
  - discriminate.
  - decide_by_computation.
  - by_computation.
  - by_computation.
  - by_computation.
  - decide_by_computation.
  - by_computation.
  - discriminate.
  - by_computation.
  - discriminate.
  - by_computation.
  - reflexivity.
Defined.

(** * The API routes *)

Lemma append_cons (a : Ascii.ascii) (s t : string) :
  (String a s ++ t)%string = String a (s ++ t)%string.
Proof. reflexivity. Qed.

Lemma append_nil (t : string) : ("" ++ t)%string = t.
Proof. reflexivity. Qed.

Lemma prefix_slice (s1 s2 : string) :
  String.prefix s1 s2 = true → s2 = (s1 ++ slice (String.length s1) s2)%string.
Proof.
  revert s2. induction s1 as [|a s1 IH]; intros s2.
  - rewrite append_nil. by destruct s2.
  - rewrite append_cons. destruct s2 as [|b s2]; [done|]. simpl.
    destruct (Ascii.ascii_dec a b) as [->|]; [|done].
    intros Hp. f_equal. by apply IH.
Qed.

Lemma prefix_append (s1 t : string) : String.prefix s1 (s1 ++ t)%string = true.
Proof.
  induction s1 as [|a s1 IH]; [by destruct t|].
  rewrite append_cons. simpl. by destruct (Ascii.ascii_dec a a).
Qed.

Lemma bearer_token_Some (authHeader : option string) (token : string) :
  bearer_token authHeader = Some token ↔ authHeader = Some ("Bearer " ++ token)%string.
Proof.
  unfold bearer_token. split.
  - destruct authHeader as [h|]; [|done].
    destruct (String.prefix "Bearer " h) eqn:Hp; [|done].
    intros [= <-]. f_equal. by apply (prefix_slice "Bearer ").
  - intros ->. rewrite (prefix_append "Bearer "). f_equal.
Qed.

Lemma verifySuperAdmin_Some (p : platform) (r : request) (decoded : doc) :
  verifySuperAdmin p r = Some decoded ↔
  ∃ token, authorization r = Some ("Bearer " ++ token)%string ∧ token ≠ "" ∧
           verifyIdToken p token = Some decoded ∧
           truthy (decoded !! "superAdmin") = true.
Proof.
  unfold verifySuperAdmin. split.
  - destruct (present (bearer_token (authorization r))) as [token|] eqn:Hp; [|done].
    apply present_nonempty in Hp as [Hb Hne].
    apply bearer_token_Some in Hb.
    destruct (verifyIdToken p token) as [d|] eqn:Hv; [|done].
    destruct (truthy (d !! "superAdmin")) eqn:Ht; [|done].
    intros [= <-]. by exists token.
  - intros (token & Hh & Hne & Hv & Ht).
    apply bearer_token_Some in Hh. rewrite Hh, present_Some by done.
    by rewrite Hv, Ht.
Qed.

(** X11: [verifySuperAdmin] lets a request through exactly when its
    authorization header is "Bearer " followed by a non-empty token
    that the platform verifies and whose decoded claims have a true
    [superAdmin]; it then returns those decoded claims.  A missing
    header, any other scheme, an empty token, a rejected token and a
    token without the claim all give no user. *)
Theorem verifySuperAdmin_accepts_iff (p : platform) (r : request) (decoded : doc) :
  verifySuperAdmin p r = Some decoded ↔
  ∃ token, authorization r = Some ("Bearer " ++ token)%string ∧ token ≠ "" ∧
           verifyIdToken p token = Some decoded ∧
           truthy (decoded !! "superAdmin") = true.
Proof. apply verifySuperAdmin_Some. Qed.

(** X12: the writing routes are for super admins only.  Unless the
    request carries a bearer token that the platform verifies and
    whose decoded claims have a true [superAdmin], creating an
    organisation and creating an invite both answer 403 and write
    nothing, whatever the body says. *)
Theorem routes_require_super_admin (p : platform) (e : env) (r : request) (w : world) :
  (∀ token decoded,
     authorization r = Some ("Bearer " ++ token)%string → token ≠ "" →
     verifyIdToken p token = Some decoded →
     truthy (decoded !! "superAdmin") = false) →
  OrgsRoute.POST p e r w
    = (Resolved {| status := 403; body := JError "Forbidden" |}, w) ∧
  InvitesRoute.POST p e r w
    = (Resolved {| status := 403; body := JError "Forbidden" |}, w).
Proof.
  intros Hno.
  assert (verifySuperAdmin p r = None) as Hv.
  { destruct (verifySuperAdmin p r) as [d|] eqn:Hv; [|done].
    apply verifySuperAdmin_Some in Hv as (token & Hh & Hne & Hv & Ht).
    by rewrite (Hno _ _ Hh Hne Hv) in Ht. }
  unfold OrgsRoute.POST, InvitesRoute.POST. by rewrite Hv.
Qed.

Lemma routes_require_super_admin_witness :
  OrgsRoute.POST platform1 today
    {| authorization := Some "Bearer uid5";
       json_body := Some {[ "name" := VStr "Acme"; "slug" := VStr "acme" ]} |} world5
    = (Resolved {| status := 403; body := JError "Forbidden" |}, world5) ∧
  InvitesRoute.POST platform1 today (invite_request "uid5" "h@x.com" "org1" "admin") world5
    = (Resolved {| status := 403; body := JError "Forbidden" |}, world5).
Proof.
  split.
  - apply (routes_require_super_admin platform1 today
             {| authorization := Some "Bearer uid5";
                json_body := Some {[ "name" := VStr "Acme"; "slug" := VStr "acme" ]} |} world5).
    intros token decoded Hh _. apply bearer_token_Some in Hh.
    vm_compute in Hh. injection Hh as <-. vm_compute. intros [= <-]; reflexivity.
  - apply (routes_require_super_admin platform1 today
             (invite_request "uid5" "h@x.com" "org1" "admin") world5).
    intros token decoded Hh _. apply bearer_token_Some in Hh.
    vm_compute in Hh. injection Hh as <-. vm_compute. intros [= <-]; reflexivity.
Defined.

Lemma existingInviteQuery_matches email d :
  matches_all (q_where (InvitesRoute.existingInviteQuery email)) d = pending_with email d.
Proof. unfold matches_all, pending_with. simpl. by rewrite andb_true_r. Qed.

Lemma provided_Some (v : option value) (x : value) :
  provided v = Some x ↔ v = Some x ∧ truthy (Some x) = true.
Proof.
  unfold provided. destruct (truthy v) eqn:Ht; split.
  - intros ->. by rewrite <-Ht.
  - by intros [-> _].
  - done.
  - intros [-> Hx]. congruence.
Qed.

Lemma valid_role_truthy (role : value) :
  InvitesRoute.valid_role role = true → truthy (Some role) = true.
Proof.
  destruct role as [| | |r|]; try done. simpl. intros Hr%bool_decide_eq_true.
  destruct r; [|done]. unfold InvitesRoute.VALID_ROLES in Hr.
  repeat (apply elem_of_cons in Hr as [Hr|Hr]; [done|]). by apply elem_of_nil in Hr.
Qed.

Section invites_route.
Variables (p : platform) (e : env) (r : request) (w : world).

Lemma invites_POST_accepts email org role invitedBy :
  can_invite p r w email org role invitedBy →
  InvitesRoute.POST p e r w =
    if fault_hits (fault e) 1 then (Rejected (SdkFailure Unavailable), w)
    else (Resolved {| status := 200; body := JInviteId (autoId p) |},
          invited p e w email org role invitedBy).
Proof.
  intros (user & fields & Hv & Hb & Hem & Htr & Horg & Hne & Hrole & Hvalid & Huid
          & [od Hod] & Hnone & Hfresh).
  unfold InvitesRoute.POST. rewrite Hv, Hb.
  rewrite (proj2 (provided_Some (fields !! "email") email)) by done.
  rewrite (proj2 (provided_Some (fields !! "orgId") (VStr org)))
    by (split; [done|]; simpl; by rewrite (proj2 (String.eqb_neq org ""))).
  rewrite (proj2 (provided_Some (fields !! "role") role))
    by (split; [done|]; by apply valid_role_truthy).
  rewrite Hvalid. simpl.
  unfold await, doc_ref, doc_get, query_get, ret, throw.
  rewrite (proj2 (String.eqb_neq org "")) by done. simpl. rewrite Hod.
  rewrite run_query_nil by (intros id d Hd; rewrite existingInviteQuery_matches;
                            by eapply Hnone).
  unfold and_then, collection_add. rewrite Huid. simpl. rewrite Hfresh.
  unfold invited, new_invite_write, new_invite, respond.
  by destruct (fault e) as [[|[|k]]|].
Qed.

(** Every request to the invites route leaves the world as it was or
    stores exactly the requested invite. *)
Lemma invites_POST_cases :
  (InvitesRoute.POST p e r w).2 = w ∨
  ∃ email org role invitedBy,
    can_invite p r w email org role invitedBy ∧
    InvitesRoute.POST p e r w =
      (Resolved {| status := 200; body := JInviteId (autoId p) |},
       invited p e w email org role invitedBy).
Proof.
  destruct (verifySuperAdmin p r) as [user|] eqn:Hv;
    [|left; unfold InvitesRoute.POST; by rewrite Hv].
  destruct (json_body r) as [fields|] eqn:Hb;
    [|left; unfold InvitesRoute.POST; by rewrite Hv, Hb].
  destruct (provided (fields !! "email")) as [email|] eqn:Hem;
    [|left; unfold InvitesRoute.POST; by rewrite Hv, Hb, Hem].
  destruct (provided (fields !! "orgId")) as [orgId|] eqn:Horg;
    [|left; unfold InvitesRoute.POST; by rewrite Hv, Hb, Hem, Horg].
  destruct (provided (fields !! "role")) as [role|] eqn:Hrole;
    [|left; unfold InvitesRoute.POST; by rewrite Hv, Hb, Hem, Horg, Hrole].
  destruct (InvitesRoute.valid_role role) eqn:Hvalid;
    [|left; unfold InvitesRoute.POST; by rewrite Hv, Hb, Hem, Horg, Hrole, Hvalid].
  unfold InvitesRoute.POST. rewrite Hv, Hb, Hem, Horg, Hrole, Hvalid. simpl.
  apply provided_Some in Hem as [Hem Htr]. apply provided_Some in Horg as [Horg Hto].
  apply provided_Some in Hrole as [Hrole _].
  unfold await, doc_ref, doc_get, query_get, ret, throw.
  destruct orgId as [| | |org|]; try (by left).
  destruct (String.eqb_spec org "") as [->|Hne]; [by left|]. simpl.
  destruct (coll (store w) "orgs" !! org) as [od|] eqn:Hod; [|by left].
  destruct (run_query (InvitesRoute.existingInviteQuery email) (store w))
    as [|x l] eqn:Hq; [|by left].
  unfold and_then, collection_add.
  destruct (user !! "uid") as [invitedBy|] eqn:Huid; [|by left]. simpl.
  destruct (coll (store w) "invites" !! autoId p) as [old|] eqn:Hfresh; [by left|].
  assert (can_invite p r w email org role invitedBy) as Hcan.
  { exists user, fields. split_and!; try done.
    intros id d Hd. rewrite <-existingInviteQuery_matches.
    destruct (matches_all _ d) eqn:Hm; [|done].
    assert ((id, d) ∈ candidates (InvitesRoute.existingInviteQuery email) (store w))
      as Hin by by apply elem_of_candidates.
    destruct (run_query_cons _ _ _ Hin) as (y & l' & Hq'); [done|congruence]. }
  destruct (fault e) as [[|[|k]]|]; simpl; try (by left);
    right; by exists email, org, role, invitedBy.
Qed.

End invites_route.

Lemma invited_invites p e w email org role invitedBy :
  coll (store (invited p e w email org role invitedBy)) "invites"
  = <[autoId p := new_invite (clock e) (plusDays p (clock e) InvitesRoute.INVITE_EXPIRY_DAYS)
                    email org role invitedBy]> (coll (store w) "invites").
Proof. apply coll_insert_eq. Qed.

Lemma invited_other p e w email org role invitedBy c :
  c ≠ "invites" → coll (store (invited p e w email org role invitedBy)) c = coll (store w) c.
Proof. intros. simpl. by rewrite coll_insert_ne. Qed.

Lemma pending_with_email email (d : doc) :
  pending_with email d = true → d !! "email" = Some email.
Proof. unfold pending_with. intros [H _]%andb_true_iff. by apply bool_decide_eq_true in H. Qed.

Lemma new_invite_email now expiresAt email org role invitedBy :
  new_invite now expiresAt email org role invitedBy !! "email" = Some email.
Proof. unfold new_invite. rewrite !lookup_insert_ne by done. apply lookup_insert_eq. Qed.

Lemma new_invite_pending now expiresAt email org role invitedBy :
  pending_with email (new_invite now expiresAt email org role invitedBy) = true.
Proof.
  unfold pending_with, new_invite.
  rewrite !lookup_insert_ne, lookup_insert_eq by done.
  rewrite (lookup_insert_ne _ "createdAt"), (lookup_insert_ne _ "expiresAt") by done.
  rewrite lookup_insert_eq. by rewrite !bool_decide_eq_true_2.
Qed.

(** X13: the invites route writes at most one document, and only a
    proper invite: a new document in the invites collection that is
    pending, carries one of the roles viewer, user and admin, names an
    organisation that exists, and expires seven days after the request;
    it is written only when no invite was pending for the email.  Any
    other request leaves store and journal as they were. *)
Theorem invites_POST_stores_valid_invite
    (p : platform) (e : env) (r : request) (w : world) :
  let w' := (InvitesRoute.POST p e r w).2 in
  w' = w ∨
  ∃ email org role invitedBy,
    (role = VStr "viewer" ∨ role = VStr "user" ∨ role = VStr "admin") ∧
    is_Some (coll (store w) "orgs" !! org) ∧
    map_Forall (λ _ d, pending_with email d = false) (coll (store w) "invites") ∧
    coll (store w) "invites" !! autoId p = None ∧
    (InvitesRoute.POST p e r w).1
      = Resolved {| status := 200; body := JInviteId (autoId p) |} ∧
    store w' =
      <["invites" :=
          <[autoId p := new_invite (clock e) (plusDays p (clock e) 7)
                          email org role invitedBy]> (coll (store w) "invites")]> (store w) ∧
    journal w' = journal w ++ [new_invite_write p e email org role invitedBy].
Proof.
  simpl. destruct (invites_POST_cases p e r w)
    as [?|(email & org & role & invitedBy & Hcan & ->)]; [by left|].
  right. exists email, org, role, invitedBy.
  destruct Hcan as (user & fields & _ & _ & _ & _ & _ & _ & _ & Hvalid & _ & Hod & Hnone & Hfresh).
  split_and!; try done.
  destruct role as [| | |role|]; try done. simpl in Hvalid.
  apply bool_decide_eq_true in Hvalid. unfold InvitesRoute.VALID_ROLES in Hvalid.
  apply elem_of_cons in Hvalid as [->|Hvalid]; [by left|].
  apply elem_of_cons in Hvalid as [->|Hvalid]; [by right; left|].
  apply elem_of_cons in Hvalid as [->|Hvalid]; [by right; right|].
  by apply elem_of_nil in Hvalid.
Qed.

(** X14: no writer breaks the rule of one pending invite per email: if
    it holds before, it holds after any request to the invites route
    and after any run of [onUserCreated]. *)
Theorem pending_unique_preserved
    (p : platform) (e : env) (r : request) (u : UserRecord) (w : world) :
  pending_unique (store w) →
  pending_unique (store (InvitesRoute.POST p e r w).2) ∧
  pending_unique (store (onUserCreated e u w).2).
Proof.
  intros Huniq. split.
  - destruct (invites_POST_cases p e r w)
      as [->|(email & org & role & invitedBy & Hcan & ->)]; [done|].
    destruct Hcan as (user & fields & _ & _ & _ & _ & _ & _ & _ & _ & _ & _ & Hnone & Hfresh).
    intros mail id1 d1 id2 d2. simpl. rewrite coll_insert_eq.
    rewrite !lookup_insert. repeat case_decide; subst.
    + done.
    + intros [= <-] Hd2 Hp1 Hp2. exfalso.
      apply pending_with_email in Hp1. rewrite new_invite_email in Hp1.
      injection Hp1 as <-.
      by rewrite (Hnone _ _ Hd2) in Hp2.
    + intros Hd1 [= <-] Hp1 Hp2. exfalso.
      apply pending_with_email in Hp2. rewrite new_invite_email in Hp2.
      injection Hp2 as <-.
      by rewrite (Hnone _ _ Hd1) in Hp1.
    + apply Huniq.
  - destruct (onUserCreated_cases e u w)
      as [->|(mail & iid & inv & ro & o & od & Hm & _ & ->)]; [done|].
    intros email id1 d1 id2 d2. simpl. rewrite materialised_invites.
    rewrite !lookup_insert. repeat case_decide; subst.
    + done.
    + intros [= <-] _ Hp1. exfalso. unfold pending_with in Hp1.
      rewrite lookup_insert_eq in Hp1.
      by rewrite (bool_decide_eq_false_2 (Some (VStr "accepted") = str "pending")),
        andb_false_r in Hp1.
    + intros _ [= <-] _ Hp2. exfalso. unfold pending_with in Hp2.
      rewrite lookup_insert_eq in Hp2.
      by rewrite (bool_decide_eq_false_2 (Some (VStr "accepted") = str "pending")),
        andb_false_r in Hp2.
    + apply Huniq.
Qed.

Lemma pending_unique_preserved_witness :
  pending_unique
    (store (InvitesRoute.POST platform1 today
              (invite_request "root" "h@x.com" "org1" "viewer") world5).2) ∧
  pending_unique (store (onUserCreated today user7 world5).2).
Proof.
  apply (pending_unique_preserved platform1 today
           (invite_request "root" "h@x.com" "org1" "viewer") user7 world5).
  intros mail id1 d1 id2 d2.
  assert (coll (store world5) "invites"
          = {[ "inviteG" := invite_doc "g@x.com" "viewer" "org1" "pending" 4 11 ]}) as ->
    by by_computation.
  intros [<- _]%lookup_singleton_Some [<- _]%lookup_singleton_Some _ _. reflexivity.
Defined.

(** X15: an invite that has expired but is still pending shuts its
    email out: the invites route refuses a new invite for the email
    with 409, because it looks at the pending status only, and
    [checkInviteOnCreate] refuses the sign-up, because the invite has
    expired. *)
Theorem expired_invite_blocks_reinvite
    (p : platform) (e : env) (r : request) (w : world) (user fields : doc)
    (mail org : string) (role : value) (inviteId : string) (invite : doc) :
  verifySuperAdmin p r = Some user →
  json_body r = Some fields →
  fields !! "email" = Some (VStr mail) → mail ≠ "" →
  fields !! "orgId" = Some (VStr org) → org ≠ "" →
  is_Some (coll (store w) "orgs" !! org) →
  fields !! "role" = Some role → InvitesRoute.valid_role role = true →
  coll (store w) "invites" !! inviteId = Some invite →
  pending_for mail invite = true →
  unexpired (clock e) invite = false →
  map_Forall (λ id d, pending_for mail d = true → id = inviteId)
             (coll (store w) "invites") →
  map_Forall (λ _ d, is_super_admin mail d = false) (coll (store w) "users") →
  InvitesRoute.POST p e r w
    = (Resolved {| status := 409;
                   body := JError "A pending invite already exists for this email" |}, w) ∧
  checkInviteOnCreate e (Some mail) w
    = (Throw (HttpsError "permission-denied"
         "No valid invitation found for this email."), w).
Proof.
  intros Hv Hb Hem Hne Horg Horgne [od Hod] Hrole Hvalid Hinv Hpend Hexp Huniq Hsuper.
  split.
  - unfold InvitesRoute.POST. rewrite Hv, Hb.
    rewrite (proj2 (provided_Some (fields !! "email") (VStr mail)))
      by (split; [done|]; simpl; by rewrite (proj2 (String.eqb_neq mail ""))).
    rewrite (proj2 (provided_Some (fields !! "orgId") (VStr org)))
      by (split; [done|]; simpl; by rewrite (proj2 (String.eqb_neq org ""))).
    rewrite (proj2 (provided_Some (fields !! "role") role))
      by (split; [done|]; by apply valid_role_truthy).
    rewrite Hvalid. simpl.
    unfold await, doc_ref, doc_get, query_get, ret, throw.
    rewrite (proj2 (String.eqb_neq org "")) by done. simpl. rewrite Hod.
    destruct (run_query_cons (InvitesRoute.existingInviteQuery (VStr mail)) (store w)
                (inviteId, invite)) as (y & l & ->); [|done|done].
    apply elem_of_candidates. by rewrite existingInviteQuery_matches.
  - rewrite checkInviteOnCreate_invite by auto using no_super_admin.
    rewrite run_query_nil; [done|]. intros id d Hd. simpl in Hd.
    rewrite validInviteQuery_matches.
    destruct (pending_for mail d) eqn:Hp; [|done].
    assert (id = inviteId) as -> by by eapply Huniq.
    rewrite Hinv in Hd. injection Hd as <-. done.
Qed.

Lemma expired_invite_blocks_reinvite_witness :
  InvitesRoute.POST platform1 today (invite_request "root" "b@x.com" "org1" "viewer") world1
    = (Resolved {| status := 409;
                   body := JError "A pending invite already exists for this email" |},
       world1) ∧
  checkInviteOnCreate today (Some "b@x.com") world1
    = (Throw (HttpsError "permission-denied"
         "No valid invitation found for this email."), world1).
Proof.
  apply (expired_invite_blocks_reinvite platform1 today
           (invite_request "root" "b@x.com" "org1" "viewer") world1
           {[ "uid" := VStr "root"; "superAdmin" := VBool true ]}
           {[ "email" := VStr "b@x.com"; "orgId" := VStr "org1"; "role" := VStr "viewer" ]}
           "b@x.com" "org1" (VStr "viewer") "inviteB"
           (invite_doc "b@x.com" "admin" "org1" "pending" 2 9)).
  - by_computation.
  - reflexivity.
  - by_computation.
  - discriminate.
  - by_computation.
  - discriminate.
  - eexists. by_computation.
  - by_computation.
  - by_computation.
  - by_computation.
  - by_computation.
  - by_computation.
  - decide_by_computation.
  - decide_by_computation.
Defined.

(** X16: from the invite to the first sign-in.  When a super admin's
    request for an invite is accepted, then until the invite expires
    [checkInviteOnCreate] approves a sign-up with that email with the
    invited role and organisation; [onUserCreated] for the new
    identity then writes the user record, accepts the invite and
    counts the member; and [validateOnSignIn] returns the same claims. *)
Theorem invited_email_signs_up
    (p : platform) (e e1 e2 e3 : env) (r : request) (w : world) (user fields : doc)
    (mail org : string) (role invitedBy : value) (od : doc) (u : UserRecord) :
  verifySuperAdmin p r = Some user →
  user !! "uid" = Some invitedBy →
  json_body r = Some fields →
  fields !! "email" = Some (VStr mail) → mail ≠ "" →
  fields !! "orgId" = Some (VStr org) → org ≠ "" →
  coll (store w) "orgs" !! org = Some od →
  fields !! "role" = Some role → InvitesRoute.valid_role role = true →
  map_Forall (λ _ d, pending_for mail d = false) (coll (store w) "invites") →
  coll (store w) "invites" !! autoId p = None →
  fault e = None →
  map_Forall (λ _ d, is_super_admin mail d = false) (coll (store w) "users") →
  (clock e1 < plusDays p (clock e) 7)%Z →
  email u = Some mail → uid u ≠ "" →
  coll (store w) "users" !! uid u = None →
  fault e2 = None →
  ∃ w1 w2,
    InvitesRoute.POST p e r w
      = (Resolved {| status := 200; body := JInviteId (autoId p) |}, w1) ∧
    checkInviteOnCreate e1 (Some mail) w1
      = (Ok (Some (MemberClaims (Some role) (Some (VStr org)))), w1) ∧
    onUserCreated e2 u w1 = (Ok tt, w2) ∧
    coll (store w2) "users" !! uid u
      = Some (user_doc (clock e2) mail u role (VStr org)) ∧
    pending_for mail <$> coll (store w2) "invites" !! autoId p = Some false ∧
    member_count <$> coll (store w2) "orgs" !! org = Some (member_count od + 1)%Z ∧
    validateOnSignIn e3 (Some (uid u)) (Some mail) w2
      = (Ok (Some (MemberClaims (Some role) (Some (VStr org)))), w2).
Proof.
  intros Hv Huid Hb Hem Hne Horg Horgne Hod Hrole Hvalid Hnone Hfresh Hf Hsuper Hclock
    Hu Hune Hufresh Hf2.
  assert (can_invite p r w (VStr mail) org role invitedBy) as Hcan.
  { exists user, fields. split_and!; try done.
    simpl. by rewrite (proj2 (String.eqb_neq mail "")). }
  set (inv := new_invite (clock e) (plusDays p (clock e) InvitesRoute.INVITE_EXPIRY_DAYS)
                (VStr mail) org role invitedBy).
  set (w1 := invited p e w (VStr mail) org role invitedBy).
  assert (coll (store w1) "invites" = <[autoId p := inv]> (coll (store w) "invites"))
    as Hinvites by apply invited_invites.
  assert (coll (store w1) "users" = coll (store w) "users") as Husers
    by by apply invited_other.
  assert (coll (store w1) "orgs" = coll (store w) "orgs") as Horgs
    by by apply invited_other.
  assert (coll (store w1) "invites" !! autoId p = Some inv) as Hinv
    by (by rewrite Hinvites, lookup_insert_eq).
  assert (pending_for mail inv = true) as Hpend by apply new_invite_pending.
  assert (map_Forall (λ id d, pending_for mail d = true → id = autoId p)
            (coll (store w1) "invites")) as Huniq.
  { rewrite Hinvites. intros id d. rewrite lookup_insert. case_decide; [done|].
    intros Hd Hp. by rewrite (Hnone _ _ Hd) in Hp. }
  assert (inv !! "role" = Some role) as Hirole.
  { unfold inv, new_invite. rewrite !lookup_insert_ne by done. apply lookup_insert_eq. }
  assert (inv !! "orgId" = Some (VStr org)) as Hiorg.
  { unfold inv, new_invite. rewrite !lookup_insert_ne by done. apply lookup_insert_eq. }
  assert (unexpired (clock e1) inv = true) as Hunexp.
  { unfold unexpired, inv, new_invite.
    rewrite lookup_insert_ne, lookup_insert_eq by done.
    by apply bool_decide_eq_true. }
  assert (materialisable u w1 mail (autoId p) inv role org od) as Hm.
  { unfold materialisable. rewrite Hu, present_Some by done.
    rewrite Husers, Horgs.
    split_and!; try done. exists []. by apply pendingInviteQuery_unique. }
  exists w1, (committed e2 u w1 mail (autoId p) inv role org od).
  split_and!.
  - by rewrite (invites_POST_accepts _ _ _ _ _ _ _ _ Hcan), Hf.
  - rewrite checkInviteOnCreate_invite; [|done|].
    + rewrite (validInviteQuery_unique _ _ _ (autoId p) inv) by done.
      by rewrite Hirole, Hiorg.
    + apply no_super_admin. by rewrite Husers.
  - by rewrite (onUserCreated_commit e2 _ _ _ _ _ _ _ _ Hm), Hf2.
  - apply committed_has_user.
  - simpl. rewrite materialised_invites, lookup_insert_eq. simpl.
    by rewrite pending_for_accepted.
  - simpl. rewrite materialised_orgs, lookup_insert_eq. simpl.
    by rewrite member_count_incremented.
  - rewrite validateOnSignIn_lookup, committed_has_user by done. simpl.
    rewrite user_doc_role, user_doc_orgId.
    rewrite (valid_role_truthy _ Hvalid). simpl.
    rewrite (proj2 (String.eqb_neq org "")) by done. simpl.
    rewrite bool_decide_eq_false_2; [done|].
    intros [= ->]. by vm_compute in Hvalid.
Qed.

Lemma invited_email_signs_up_witness :
  ∃ w1 w2,
    InvitesRoute.POST platform1 today (invite_request "root" "h@x.com" "org1" "viewer") world5
      = (Resolved {| status := 200; body := JInviteId "auto1" |}, w1) ∧
    checkInviteOnCreate today (Some "h@x.com") w1
      = (Ok (Some (MemberClaims (str "viewer") (str "org1"))), w1) ∧
    onUserCreated today
      {| uid := "uid10"; email := Some "h@x.com"; displayName := None; photoURL := None |} w1
      = (Ok tt, w2) ∧
    member_count <$> coll (store w2) "orgs" !! "org1" = Some 2%Z ∧
    validateOnSignIn today (Some "uid10") (Some "h@x.com") w2
      = (Ok (Some (MemberClaims (str "viewer") (str "org1"))), w2).
Proof.
  destruct (invited_email_signs_up platform1 today today today today
              (invite_request "root" "h@x.com" "org1" "viewer") world5
              {[ "uid" := VStr "root"; "superAdmin" := VBool true ]}
              {[ "email" := VStr "h@x.com"; "orgId" := VStr "org1"; "role" := VStr "viewer" ]}
              "h@x.com" "org1" (VStr "viewer") (VStr "root")
              {[ "name" := VStr "Org One"; "memberCount" := VNum 1 ]}
              {| uid := "uid10"; email := Some "h@x.com"; displayName := None;
                 photoURL := None |})
    as (w1 & w2 & Hpost & Hcreate & Hcreated & _ & _ & Hcount & HsignIn).
  - by_computation.
  - by_computation.
  - reflexivity.
  - by_computation.
  - discriminate.
  - by_computation.
  - discriminate.
  - by_computation.
  - by_computation.
  - by_computation.
  - decide_by_computation.
  - by_computation.
  - reflexivity.
  - decide_by_computation.
  - reflexivity.
  - reflexivity.
  - discriminate.
  - by_computation.
  - reflexivity.
  - exists w1, w2. split; [exact Hpost|]. split; [exact Hcreate|].
    split; [exact Hcreated|]. split; [exact Hcount|exact HsignIn].
Defined.

Lemma slugQuery_matches slug d :
  matches_all (q_where (OrgsRoute.slugQuery slug)) d = bool_decide (d !! "slug" = Some slug).
Proof. unfold matches_all. simpl. by rewrite andb_true_r. Qed.

(** Every request to the organisations route leaves the world as it
    was or stores exactly one new organisation. *)
Lemma orgs_POST_cases (p : platform) (e : env) (r : request) (w : world) :
  (OrgsRoute.POST p e r w).2 = w ∨
  ∃ name slug createdBy,
    map_Forall (λ _ d, d !! "slug" ≠ Some slug) (coll (store w) "orgs") ∧
    coll (store w) "orgs" !! autoId p = None ∧
    OrgsRoute.POST p e r w =
      (Resolved {| status := 200; body := JOrgId (autoId p) |},
       {| store := <["orgs" := <[autoId p := new_org (clock e) name slug createdBy]>
                                 (coll (store w) "orgs")]> (store w);
          journal := journal w ++
            [WSet "orgs" (autoId p)
               [ ("name", WVal name); ("slug", WVal slug); ("createdBy", WVal createdBy);
                 ("createdAt", WServerTimestamp); ("memberCount", WVal (VNum 0)) ]] |}).
Proof.
  unfold OrgsRoute.POST.
  destruct (verifySuperAdmin p r) as [user|]; [|by left].
  destruct (json_body r) as [fields|]; [|by left].
  destruct (provided (fields !! "name")) as [name|]; [|by left].
  destruct (provided (fields !! "slug")) as [slug|]; [|by left].
  unfold await, query_get.
  destruct (run_query (OrgsRoute.slugQuery slug) (store w)) as [|x l] eqn:Hq; [|by left].
  unfold and_then, collection_add.
  destruct (user !! "uid") as [createdBy|]; [|by left]. simpl.
  destruct (coll (store w) "orgs" !! autoId p) as [old|] eqn:Hfresh; [by left|].
  destruct (fault e) as [[|[|k]]|]; simpl; try (by left);
    right; exists name, slug, createdBy; (split; [|done]);
    intros id d Hd Hslug;
    (assert ((id, d) ∈ candidates (OrgsRoute.slugQuery slug) (store w)) as Hin
       by (apply elem_of_candidates; rewrite slugQuery_matches;
           by rewrite bool_decide_eq_true_2));
    destruct (run_query_cons _ _ _ Hin) as (y & l' & Hq'); done || congruence.
Qed.

(** X17: the organisations route keeps slugs unique and changes no
    existing organisation: after any request every organisation that
    was there is unchanged, at most one organisation is new, it starts
    with a member count of zero, and if no two organisations shared a
    slug before, none do after. *)
Theorem orgs_POST_keeps_slugs_unique (p : platform) (e : env) (r : request) (w : world) :
  let st := store w in
  let st' := store (OrgsRoute.POST p e r w).2 in
  (slugs_unique st → slugs_unique st') ∧
  (∀ id d, coll st "orgs" !! id = Some d → coll st' "orgs" !! id = Some d) ∧
  (∀ id d, coll st "orgs" !! id = None → coll st' "orgs" !! id = Some d →
           id = autoId p ∧ member_count d = 0%Z) ∧
  (∀ c, c ≠ "orgs" → coll st' c = coll st c).
Proof.
  simpl. destruct (orgs_POST_cases p e r w)
    as [->|(name & slug & createdBy & Hnone & Hfresh & ->)].
  { split_and!; [done|done| |done]. intros id d Hn Hs. congruence. }
  unfold slugs_unique. simpl. rewrite !coll_insert_eq. split_and!.
  - intros Huniq s id1 d1 id2 d2. rewrite !lookup_insert.
    assert (new_org (clock e) name slug createdBy !! "slug" = Some slug) as Hslug.
    { unfold new_org. rewrite !lookup_insert_ne by done. apply lookup_insert_eq. }
    repeat case_decide; subst.
    + done.
    + intros [= <-] Hd2 Hs1 Hs2. exfalso. rewrite Hslug in Hs1.
      injection Hs1 as <-. by eapply Hnone.
    + intros Hd1 [= <-] Hs1 Hs2. exfalso. rewrite Hslug in Hs2.
      injection Hs2 as <-. by eapply Hnone.
    + eauto.
  - intros id d Hd. rewrite lookup_insert_ne; [done|]. intros <-. congruence.
  - intros id d Hn. rewrite lookup_insert. case_decide as Hid; [|congruence].
    intros [= <-]. by rewrite Hid.
  - intros c Hc. by rewrite coll_insert_ne.
Qed.

(** X18: the organisation lookup of a signed-in user always answers,
    with status 200 or 401, and writes nothing; the only organisation
    it ever discloses is the one that the [orgId] claim of the caller's
    verified token names, with the name and slug stored for it. *)
Theorem user_org_GET_discloses_own_org (p : platform) (r : request) (w : world) :
  ∃ resp,
    UserOrgRoute.GET p r w = (Resolved resp, w) ∧
    (status resp = 200%nat ∨ status resp = 401%nat) ∧
    (∀ id name slug, body resp = JOrg (Some (id, name, slug)) →
       ∃ token decoded orgData,
         authorization r = Some ("Bearer " ++ token)%string ∧
         verifyIdToken p token = Some decoded ∧
         decoded !! "orgId" = Some (VStr id) ∧
         coll (store w) "orgs" !! id = Some orgData ∧
         name = orgData !! "name" ∧ slug = orgData !! "slug").
Proof.
  unfold UserOrgRoute.GET.
  destruct (present (bearer_token (authorization r))) as [token|] eqn:Hp.
  2: { eexists. split; [done|]. split; [by right|]. done. }
  apply present_nonempty in Hp as [Hb Hne]. apply bearer_token_Some in Hb.
  unfold try_catch.
  destruct (verifyIdToken p token) as [decoded|] eqn:Hv.
  2: { eexists. split; [done|]. split; [by right|]. done. }
  destruct (provided (decoded !! "orgId")) as [orgId|] eqn:Horg.
  2: { eexists. split; [done|]. split; [by left|]. done. }
  apply provided_Some in Horg as [Horg _].
  unfold await, doc_ref, doc_get, ret, throw.
  destruct orgId as [| | |org|];
    try (eexists; split; [done|]; split; [by right|]; done).
  destruct (String.eqb_spec org "") as [->|Horgne].
  { eexists. split; [done|]. split; [by right|]. done. }
  simpl. destruct (coll (store w) "orgs" !! org) as [orgData|] eqn:Hod.
  - eexists. split; [done|]. split; [by left|]. simpl.
    intros id name slug [= <- <- <-]. by exists token, decoded, orgData.
  - eexists. split; [done|]. split; [by left|]. done.
Qed.

(** * The bootstrap script *)

(** Every run of the script either exits with code 1, leaving the
    world as it was, or completes with the super-admin document merged
    into the users collection. *)
Lemma main_cases (auth : auth_service) (e : env) (args : list string) (w : world) :
  main auth e args w = (Exited 1, w) ∨
  ∃ id emailForDoc name photo w',
    main auth e args w = (Completed, w') ∧
    id ≠ "" ∧
    promoted auth args id emailForDoc ∧
    store w' =
      <["users" :=
          <[id := bootstrapped_doc (clock e)
                    (default ∅ (coll (store w) "users" !! id))
                    emailForDoc name photo]> (coll (store w) "users")]> (store w).
Proof.
  unfold main.
  destruct (match present (argument "--uid" args) with
            | Some uidArg => _
            | None => _
            end) as [[[[id emailForDoc] name] photo]|] eqn:Hid; [|by left].
  assert (promoted auth args id emailForDoc) as Hprom.
  { unfold promoted. destruct (present (argument "--uid" args)) as [uidArg|].
    - left. destruct (getUser auth uidArg) as [user|] eqn:Hu; [|done].
      simpl in Hid. injection Hid as <- <- _ _. by exists uidArg, user.
    - right. destruct (present (argument "--email" args)) as [emailArg|]; [|done].
      destruct (present (argument "--password" args)) as [passwordArg|]; [|done].
      destruct (createUser auth emailArg passwordArg) as [created|] eqn:Hc; [|done].
      simpl in Hid. injection Hid as <- <- _ _. by exists emailArg, passwordArg, created. }
  clear Hid.
  destruct (setCustomUserClaims auth id SUPER_ADMIN_CLAIMS); [|by left].
  unfold bind, doc_ref, str.
  destruct (String.eqb_spec id "") as [->|Hne]; [by left|]. simpl.
  unfold set_merge. simpl.
  destruct (coll (store w) "users" !! id) as [old|] eqn:Hold; simpl.
  - rewrite Hold.
    destruct (fault e) as [[|[|k]]|]; simpl; try (by left);
      right; exists id, emailForDoc, name, photo; eexists; (split; [done|]);
      (split; [done|]); (split; [done|]); simpl; by rewrite Hold.
  - destruct (fault e) as [[|[|k]]|]; simpl; try (by left);
      right; exists id, emailForDoc, name, photo; eexists; (split; [done|]);
      (split; [done|]); (split; [done|]); simpl; by rewrite Hold.
Qed.

(** X19: once the script has completed, the three functions treat the
    identity as the super admin: every sign-in of the identity gets the
    super-admin claims, a sign-up with the email of its document is
    approved without an invite, and [onUserCreated] for the identity
    writes nothing.  Apart from the one user document, which keeps the
    fields the script does not set, the store is as before. *)
Theorem bootstrap_makes_super_admin
    (auth : auth_service) (e : env) (args : list string) (w w' : world) :
  main auth e args w = (Completed, w') →
  ∃ id emailForDoc d,
    promoted auth args id emailForDoc ∧
    id ≠ "" ∧
    coll (store w') "users" !! id = Some d ∧
    d !! "role" = str "superAdmin" ∧ d !! "orgId" = Some VNull ∧
    d !! "email" = str emailForDoc ∧
    (∀ k old, k ∉ ["email"; "displayName"; "photoURL"; "orgId"; "role";
                    "createdAt"; "updatedAt"] →
              coll (store w) "users" !! id = Some old → d !! k = old !! k) ∧
    (∀ e' mail, mail ≠ "" →
       validateOnSignIn e' (Some id) (Some mail) w' = (Ok (Some SuperAdminClaims), w')) ∧
    (∀ e', emailForDoc ≠ "" →
       checkInviteOnCreate e' (Some emailForDoc) w' = (Ok (Some SuperAdminClaims), w')) ∧
    (∀ e' u, uid u = id → onUserCreated e' u w' = (Ok tt, w')) ∧
    (∀ id', id' ≠ id → coll (store w') "users" !! id' = coll (store w) "users" !! id') ∧
    (∀ c, c ≠ "users" → coll (store w') c = coll (store w) c).
Proof.
  intros Hrun. destruct (main_cases auth e args w)
    as [Hexit|(id & emailForDoc & name & photo & w1 & Hrun1 & Hne & Hprom & Hstore)];
    [congruence|].
  assert (w1 = w') as -> by congruence.
  set (d := bootstrapped_doc (clock e) (default ∅ (coll (store w) "users" !! id))
              emailForDoc name photo) in *.
  assert (coll (store w') "users" !! id = Some d) as Hd.
  { by rewrite Hstore, coll_insert_eq, lookup_insert_eq. }
  assert (d !! "role" = str "superAdmin") as Hrole.
  { unfold d, bootstrapped_doc. rewrite !lookup_insert_ne by done. apply lookup_insert_eq. }
  assert (d !! "email" = str emailForDoc) as Hemail.
  { unfold d, bootstrapped_doc. rewrite !lookup_insert_ne by done. apply lookup_insert_eq. }
  exists id, emailForDoc, d. split_and!; try done.
  - unfold d, bootstrapped_doc. rewrite !lookup_insert_ne by done. apply lookup_insert_eq.
  - intros k old Hk Hold. unfold d, bootstrapped_doc. rewrite Hold. simpl.
    rewrite !lookup_insert_ne; [done|..]; intros <-; apply Hk;
      repeat first [by left | right].
  - intros e' mail Hmail. rewrite validateOnSignIn_lookup, Hd by done. simpl.
    by rewrite bool_decide_eq_true_2.
  - intros e' Hmail. apply checkInviteOnCreate_superAdmin; [done|].
    destruct (run_query_cons (superAdminQuery emailForDoc) (store w') (id, d))
      as (y & l & ->); [|done..].
    apply elem_of_candidates. rewrite superAdminQuery_matches. split; [done|].
    unfold is_super_admin. by rewrite !bool_decide_eq_true_2.
  - intros e' u Hu. destruct (present (email u)) as [mail|] eqn:Hem.
    + apply (onUserCreated_existing_ok _ _ _ mail); [done|by rewrite Hu|].
      rewrite Hu. by eexists.
    + unfold onUserCreated. by rewrite Hem.
  - intros id' Hid. by rewrite Hstore, coll_insert_eq, lookup_insert_ne.
  - intros c Hc. by rewrite Hstore, coll_insert_ne.
Qed.

Lemma bootstrap_makes_super_admin_witness :
  ∃ w' id, main auth1 today ["--uid"; "root2"] world1 = (Completed, w') ∧
    id ≠ "" ∧
    ∀ mail, mail ≠ "" →
      validateOnSignIn today (Some id) (Some mail) w' = (Ok (Some SuperAdminClaims), w').
Proof.
  assert (∃ w', main auth1 today ["--uid"; "root2"] world1 = (Completed, w')) as [w' Hrun].
  { eexists. vm_compute. reflexivity. }
  destruct (bootstrap_makes_super_admin auth1 today ["--uid"; "root2"] world1 w' Hrun)
    as (id & mail & d & _ & Hne & _ & _ & _ & _ & _ & HsignIn & _).
  exists w', id. split; [exact Hrun|]. split; [exact Hne|]. exact (HsignIn today).
Defined.

(** X20: how the script fails.  Whenever it does not complete it exits
    with code 1 and has written nothing to the store.  Without a
    [--uid] value it needs both an [--email] and a [--password] value,
    and exits otherwise; with a [--uid] value the other two arguments
    play no part. *)
Theorem bootstrap_exits_cleanly
    (auth : auth_service) (e : env) (args : list string) (w : world) :
  (main auth e args w = (Exited 1, w) ∨ (main auth e args w).1 = Completed) ∧
  (present (argument "--uid" args) = None →
   present (argument "--email" args) = None ∨
   present (argument "--password" args) = None →
   main auth e args w = (Exited 1, w)) ∧
  (∀ args', is_Some (present (argument "--uid" args)) →
            argument "--uid" args' = argument "--uid" args →
            main auth e args' w = main auth e args w).
Proof.
  split_and!.
  - destruct (main_cases auth e args w) as [?|(?&?&?&?&?& -> & _)]; [by left|by right].
  - intros Hu Hep. unfold main. rewrite Hu.
    destruct Hep as [-> | ->]; [done|].
    by destruct (present (argument "--email" args)).
  - intros args' [uidArg Hu] Heq. unfold main. rewrite Heq, Hu. done.
Qed.
